(** * WebRTC SFU signaling server ([server.js]): model and verification

    The server keeps one broadcaster session and a map of viewer sessions,
    and reacts to WebSocket messages, WebSocket closure, peer-connection
    callbacks and one timer.  This file embeds the state and the handlers of
    [server.js] in Rocq and proves properties of them.

    Modelling conventions.
    - The module-level variables of [server.js] are the fields of [World],
      together with the objects the code holds references to: the peer
      connections ([pcs]), the WebSocket connections with the variables
      [role] and [viewerId] their closure owns ([sockets]), the timers
      created by [setTimeout] ([timers]), the tracks that carry an [onended]
      handler, and the lines written by [log] ([console]).
    - The WebRTC engine and the socket layer are external.  Every call that
      can fail ([createOffer], [setLocalDescription], [setRemoteDescription],
      [createAnswer], [addIceCandidate], [replaceTrack], [ws.send]) asks the
      environment for its outcome: the [n]-th such call made by a handler gets
      [oracle env n].  Nothing is assumed about the oracle.
    - A handler runs to completion before the next event is delivered: an
      [await] is modelled as sequential composition.
    - Fields of an inbound JSON message are strings; an absent field is the
      empty string (which [server.js] cannot tell apart in any test it
      makes: [msg.viewerId || randomUUID()], [msg.type === "register"]).
    - [pc.close()] does not throw (the code wraps it in [try]/[catch]
      all the same).
    - Left out: the HTTP routes ([/], [/health], [/ping]), which only read
      the state; the keep-alive [ws.ping()] interval of each connection; the
      two periodic reports (status and memory), which only write lines with
      [log]; and the exit of the process at the end of [shutdown]. *)

From stdpp Require Import base option list strings gmap pretty.

Set Warnings "-clear-no-such-hyp".

Open Scope string_scope.
Open Scope list_scope.

(** ** Values exchanged with the outside *)

(** A media track received from the broadcaster: an object with an identity
    and a [kind] ("video", "audio"). *)
Record Track := mkTrack { track_id : nat; kind : string }.

(** A parsed inbound message: [msg.type], [msg.role], [msg.viewerId],
    [msg.offer], [msg.answer], [msg.candidate]. *)
Record InMsg := mkInMsg {
  m_type : string;
  m_role : string;
  m_viewerId : string;
  m_offer : string;
  m_answer : string;
  m_candidate : string
}.

(** What [JSON.parse(raw)] gives: a syntax error, the value [null] (on which
    [msg.type] throws), or an object. *)
Inductive Raw :=
| Malformed
| JNull
| JObj (msg : InMsg).

(** Outbound messages, one constructor per object literal passed to
    [safeSend]. *)
Inductive OutMsg :=
| MRegisteredBroadcaster (viewerCount : nat)
| MRegisteredViewer (viewerId : string)
| MOffer (offer : option string)
| MAnswer (answer : option string)
| MCandidate (candidate : string)
| MViewerCount (count : nat)
| MBroadcasterDisconnected (permanent : bool).

(** A line written by [log(msg, level)]. *)
Record LogLine := mkLog { log_msg : string; log_level : string }.

(** ** Objects the server holds *)

(** One transceiver of a peer connection: its media kind, its direction and
    the track of its sender ([None] is [null]). *)
Record Transceiver := mkTransceiver {
  t_kind : string;
  t_direction : string;
  t_track : option Track
}.

(** What the callbacks installed on a peer connection have captured:
    [createBroadcasterPeer(ws)] captures [ws], [createViewerPeer(viewerId, ws)]
    captures [viewerId] and [ws]. *)
Inductive Owner :=
| OwnBroadcaster (ws : nat)
| OwnViewer (viewerId : string) (ws : nat).

(** An [RTCPeerConnection].  [iceCalls] lists the calls of
    [addIceCandidate] in order, each with whether it succeeded. *)
Record PeerConnection := mkPc {
  pc_owner : Owner;
  pc_closed : bool;
  remoteDescription : option string;
  localDescription : option string;
  transceivers : list Transceiver;
  iceCalls : list (string * bool)
}.

(** A WebSocket connection and the variables of its [connection] closure. *)
Record Socket := mkSocket {
  role : option string;
  viewerId : option string;
  readyState : nat;
  sent : list OutMsg
}.

(** A timer made by [setTimeout]. *)
Record Timer := mkTimer { delay : N; pending : bool }.

(** [broadcasterPeer = { ws, pc, videoTrack }] *)
Record Broadcaster := mkBroadcaster {
  b_ws : nat;
  b_pc : nat;
  videoTrack : option Track
}.

(** An entry of [viewerPeers]: [{ ws, pc }] *)
Record Viewer := mkViewer { v_ws : nat; v_pc : nat }.

(** ** A JavaScript [Map] with string keys

    [viewerPeers] is iterated with [for ... of] and [forEach], which visit the
    entries in insertion order, so it is a list of entries in that order. *)
Module JsMap.
Section Ops.
Context {V : Type}.

Fixpoint get (k : string) (m : list (string * V)) : option V :=
  match m with
  | [] => None
  | (k', v) :: m' => if String.eqb k k' then Some v else get k m'
  end.

(** [m.set(k, v)]: an existing key keeps its place, a new key goes last. *)
Fixpoint set (k : string) (v : V) (m : list (string * V)) : list (string * V) :=
  match m with
  | [] => [(k, v)]
  | (k', v') :: m' =>
      if String.eqb k k' then (k, v) :: m' else (k', v') :: set k v m'
  end.

Fixpoint delete (k : string) (m : list (string * V)) : list (string * V) :=
  match m with
  | [] => []
  | (k', v') :: m' =>
      if String.eqb k k' then delete k m' else (k', v') :: delete k m'
  end.

Definition keys (m : list (string * V)) : list string := m.*1.

End Ops.
End JsMap.

(** ** The state *)

Record World := mkWorld {
  broadcasterPeer : option Broadcaster;
  broadcasterWs : option nat;
  viewerPeers : list (string * Viewer);
  pendingCandidates : gmap string (list string);
  broadcasterTimeoutTimer : option nat;
  timers : list Timer;
  pcs : list PeerConnection;
  sockets : list Socket;
  onended : gset nat;
  console : list LogLine
}.

Definition BROADCASTER_TIMEOUT : N := 30000.

Definition init : World :=
  {| broadcasterPeer := None; broadcasterWs := None; viewerPeers := [];
     pendingCandidates := ∅; broadcasterTimeoutTimer := None; timers := [];
     pcs := []; sockets := []; onended := ∅; console := [] |}.

Definition set_broadcasterPeer (x : option Broadcaster) (w : World) : World :=
  {| broadcasterPeer := x; broadcasterWs := broadcasterWs w;
     viewerPeers := viewerPeers w; pendingCandidates := pendingCandidates w;
     broadcasterTimeoutTimer := broadcasterTimeoutTimer w; timers := timers w;
     pcs := pcs w; sockets := sockets w; onended := onended w;
     console := console w |}.

Definition set_broadcasterWs (x : option nat) (w : World) : World :=
  {| broadcasterPeer := broadcasterPeer w; broadcasterWs := x;
     viewerPeers := viewerPeers w; pendingCandidates := pendingCandidates w;
     broadcasterTimeoutTimer := broadcasterTimeoutTimer w; timers := timers w;
     pcs := pcs w; sockets := sockets w; onended := onended w;
     console := console w |}.

Definition set_viewerPeers (x : list (string * Viewer)) (w : World) : World :=
  {| broadcasterPeer := broadcasterPeer w; broadcasterWs := broadcasterWs w;
     viewerPeers := x; pendingCandidates := pendingCandidates w;
     broadcasterTimeoutTimer := broadcasterTimeoutTimer w; timers := timers w;
     pcs := pcs w; sockets := sockets w; onended := onended w;
     console := console w |}.

Definition set_pendingCandidates (x : gmap string (list string)) (w : World) : World :=
  {| broadcasterPeer := broadcasterPeer w; broadcasterWs := broadcasterWs w;
     viewerPeers := viewerPeers w; pendingCandidates := x;
     broadcasterTimeoutTimer := broadcasterTimeoutTimer w; timers := timers w;
     pcs := pcs w; sockets := sockets w; onended := onended w;
     console := console w |}.

Definition set_broadcasterTimeoutTimer (x : option nat) (w : World) : World :=
  {| broadcasterPeer := broadcasterPeer w; broadcasterWs := broadcasterWs w;
     viewerPeers := viewerPeers w; pendingCandidates := pendingCandidates w;
     broadcasterTimeoutTimer := x; timers := timers w;
     pcs := pcs w; sockets := sockets w; onended := onended w;
     console := console w |}.

Definition set_timers (x : list Timer) (w : World) : World :=
  {| broadcasterPeer := broadcasterPeer w; broadcasterWs := broadcasterWs w;
     viewerPeers := viewerPeers w; pendingCandidates := pendingCandidates w;
     broadcasterTimeoutTimer := broadcasterTimeoutTimer w; timers := x;
     pcs := pcs w; sockets := sockets w; onended := onended w;
     console := console w |}.

Definition set_pcs (x : list PeerConnection) (w : World) : World :=
  {| broadcasterPeer := broadcasterPeer w; broadcasterWs := broadcasterWs w;
     viewerPeers := viewerPeers w; pendingCandidates := pendingCandidates w;
     broadcasterTimeoutTimer := broadcasterTimeoutTimer w; timers := timers w;
     pcs := x; sockets := sockets w; onended := onended w;
     console := console w |}.

Definition set_sockets (x : list Socket) (w : World) : World :=
  {| broadcasterPeer := broadcasterPeer w; broadcasterWs := broadcasterWs w;
     viewerPeers := viewerPeers w; pendingCandidates := pendingCandidates w;
     broadcasterTimeoutTimer := broadcasterTimeoutTimer w; timers := timers w;
     pcs := pcs w; sockets := x; onended := onended w;
     console := console w |}.

Definition set_onended (x : gset nat) (w : World) : World :=
  {| broadcasterPeer := broadcasterPeer w; broadcasterWs := broadcasterWs w;
     viewerPeers := viewerPeers w; pendingCandidates := pendingCandidates w;
     broadcasterTimeoutTimer := broadcasterTimeoutTimer w; timers := timers w;
     pcs := pcs w; sockets := sockets w; onended := x;
     console := console w |}.

Definition set_console (x : list LogLine) (w : World) : World :=
  {| broadcasterPeer := broadcasterPeer w; broadcasterWs := broadcasterWs w;
     viewerPeers := viewerPeers w; pendingCandidates := pendingCandidates w;
     broadcasterTimeoutTimer := broadcasterTimeoutTimer w; timers := timers w;
     pcs := pcs w; sockets := sockets w; onended := onended w;
     console := x |}.

(** ** The handler monad: state, exceptions and the environment's answers *)

Inductive Outcome :=
| Ok (value : string)
| Err (message : string).

Record Env := mkEnv { oracle : nat → Outcome }.

Inductive Result (A : Type) :=
| Done (a : A)
| Throw (message : string).
Arguments Done {A} a.
Arguments Throw {A} message.

Definition M (A : Type) : Type := Env → nat → World → Result A * nat * World.

Definition ret {A} (a : A) : M A := λ _ n w, (Done a, n, w).

Definition bind {A B} (m : M A) (k : A → M B) : M B :=
  λ env n w,
    match m env n w with
    | (Done a, n', w') => k a env n' w'
    | (Throw e, n', w') => (Throw e, n', w')
    end.

Definition throw {A} (e : string) : M A := λ _ n w, (Throw e, n, w).

(** [try { body } catch (e) { handler(e) }] *)
Definition try_catch {A} (body : M A) (handler : string → M A) : M A :=
  λ env n w,
    match body env n w with
    | (Done a, n', w') => (Done a, n', w')
    | (Throw e, n', w') => handler e env n' w'
    end.

Definition get : M World := λ _ n w, (Done w, n, w).
Definition modify (f : World → World) : M unit := λ _ n w, (Done tt, n, f w).

(** A call into the engine or the socket layer: it returns a value or
    throws, as the environment decides. *)
Definition external : M string :=
  λ env n w,
    match oracle env n with
    | Ok v => (Done v, S n, w)
    | Err e => (Throw e, S n, w)
    end.

#[global] Instance M_ret : MRet M := @ret.
#[global] Instance M_bind : MBind M := λ A B k m, bind m k.

Fixpoint for_each {X} (l : list X) (body : X → M unit) : M unit :=
  match l with
  | [] => ret tt
  | x :: l' => body x;; for_each l' body
  end.

(** ** The objects' own operations *)

Definition set_closed (b : bool) (pc : PeerConnection) : PeerConnection :=
  {| pc_owner := pc_owner pc; pc_closed := b;
     remoteDescription := remoteDescription pc;
     localDescription := localDescription pc;
     transceivers := transceivers pc; iceCalls := iceCalls pc |}.

Definition set_remoteDescription (d : option string) (pc : PeerConnection) : PeerConnection :=
  {| pc_owner := pc_owner pc; pc_closed := pc_closed pc;
     remoteDescription := d;
     localDescription := localDescription pc;
     transceivers := transceivers pc; iceCalls := iceCalls pc |}.

Definition set_localDescription (d : option string) (pc : PeerConnection) : PeerConnection :=
  {| pc_owner := pc_owner pc; pc_closed := pc_closed pc;
     remoteDescription := remoteDescription pc;
     localDescription := d;
     transceivers := transceivers pc; iceCalls := iceCalls pc |}.

Definition set_transceivers (l : list Transceiver) (pc : PeerConnection) : PeerConnection :=
  {| pc_owner := pc_owner pc; pc_closed := pc_closed pc;
     remoteDescription := remoteDescription pc;
     localDescription := localDescription pc;
     transceivers := l; iceCalls := iceCalls pc |}.

Definition set_iceCalls (l : list (string * bool)) (pc : PeerConnection) : PeerConnection :=
  {| pc_owner := pc_owner pc; pc_closed := pc_closed pc;
     remoteDescription := remoteDescription pc;
     localDescription := localDescription pc;
     transceivers := transceivers pc; iceCalls := l |}.

Definition set_track (t : option Track) (tr : Transceiver) : Transceiver :=
  {| t_kind := t_kind tr; t_direction := t_direction tr; t_track := t |}.

Definition update_pc (i : nat) (f : PeerConnection → PeerConnection) : M unit :=
  modify (λ w, set_pcs (alter f i (pcs w)) w).

Definition update_socket (c : nat) (f : Socket → Socket) : M unit :=
  modify (λ w, set_sockets (alter f c (sockets w)) w).

(** [new RTCPeerConnection(...)], with the callbacks' captured variables. *)
Definition new_pc (o : Owner) : M nat :=
  w ← get;
  modify (set_pcs (pcs w ++ [mkPc o false None None [] []]));;
  mret (length (pcs w)).

Definition pc_close (i : nat) : M unit := update_pc i (set_closed true).

(** [pc.addTransceiver(trackOrKind, { direction })] *)
Definition addTransceiver (i : nat) (tr : Transceiver) : M unit :=
  update_pc i (λ pc, set_transceivers (transceivers pc ++ [tr]) pc).

Definition createOffer (i : nat) : M string := external.
Definition createAnswer (i : nat) : M string := external.

Definition setLocalDescription (i : nat) (d : string) : M unit :=
  external;; update_pc i (set_localDescription (Some d)).

(** [pc.setRemoteDescription(new RTCSessionDescription(d))] *)
Definition setRemoteDescription (i : nat) (d : string) : M unit :=
  external;; update_pc i (set_remoteDescription (Some d)).

(** [pc.addIceCandidate(new RTCIceCandidate(c))] *)
Definition addIceCandidate (i : nat) (c : string) : M unit :=
  try_catch
    (external;; update_pc i (λ pc, set_iceCalls (iceCalls pc ++ [(c, true)]) pc))
    (λ e, update_pc i (λ pc, set_iceCalls (iceCalls pc ++ [(c, false)]) pc);;
          throw e).

(** The test of [senders.find(s => s.track === null ||
    (s.track && s.track.kind === "video"))]. *)
Definition empty_or_video (tr : Transceiver) : bool :=
  match t_track tr with
  | None => true
  | Some t => String.eqb (kind t) "video"
  end.

(** [pc.getSenders().find(...)]: the position of the first sender that
    passes the test. *)
Definition find_sender (i : nat) (w : World) : option nat :=
  pc ← pcs w !! i;
  fst <$> list_find (λ tr, empty_or_video tr) (transceivers pc).

(** [sender.replaceTrack(track)], for the sender at position [idx]. *)
Definition replaceTrack (i idx : nat) (track : Track) : M unit :=
  external;;
  update_pc i (λ pc,
    set_transceivers (alter (set_track (Some track)) idx (transceivers pc)) pc).

Definition set_role (r : option string) (s : Socket) : Socket :=
  {| role := r; viewerId := viewerId s; readyState := readyState s; sent := sent s |}.
Definition set_viewerId (v : option string) (s : Socket) : Socket :=
  {| role := role s; viewerId := v; readyState := readyState s; sent := sent s |}.
Definition set_readyState (n : nat) (s : Socket) : Socket :=
  {| role := role s; viewerId := viewerId s; readyState := n; sent := sent s |}.
Definition set_sent (l : list OutMsg) (s : Socket) : Socket :=
  {| role := role s; viewerId := viewerId s; readyState := readyState s; sent := l |}.

(** [ws.send(JSON.stringify(data))] *)
Definition ws_send (c : nat) (data : OutMsg) : M unit :=
  external;; update_socket c (λ s, set_sent (sent s ++ [data]) s).

Definition setTimeout (d : N) : M nat :=
  w ← get;
  modify (set_timers (timers w ++ [mkTimer d true]));;
  mret (length (timers w)).

Definition clearTimeout (t : nat) : M unit :=
  modify (λ w, set_timers (alter (λ tm, mkTimer (delay tm) false) t (timers w)) w).

(** ** The functions of [server.js] *)

Definition log (msg level : string) : M unit :=
  modify (λ w, set_console (console w ++ [mkLog msg level]) w).

Definition safeSend (ws : option nat) (data : OutMsg) : M bool :=
  w ← get;
  match ws with
  | Some c =>
      if bool_decide (readyState <$> sockets w !! c = Some 1) then
        try_catch (ws_send c data;; mret true)
                  (λ e, log ("send error: " +:+ e) "error";; mret false)
      else mret false
  | None => mret false
  end.

Definition notifyViewerCount : M unit :=
  w ← get;
  safeSend (broadcasterWs w) (MViewerCount (length (viewerPeers w)));;
  mret tt.

Definition notifyAllViewers (data : OutMsg) : M unit :=
  w ← get;
  for_each (viewerPeers w) (λ '(_, peer), safeSend (Some (v_ws peer)) data;; mret tt).

Definition cleanupViewer (viewerId : string) : M unit :=
  w ← get;
  match JsMap.get viewerId (viewerPeers w) with
  | None => mret tt
  | Some peer =>
      pc_close (v_pc peer);;
      modify (λ w, set_viewerPeers (JsMap.delete viewerId (viewerPeers w)) w);;
      modify (λ w, set_pendingCandidates (delete viewerId (pendingCandidates w)) w);;
      w ← get;
      log ("Viewer " +:+ viewerId +:+ " cleaned up (remaining: "
             +:+ pretty (length (viewerPeers w)) +:+ ")") "info";;
      notifyViewerCount
  end.

Definition cleanupBroadcaster : M unit :=
  w ← get;
  match broadcasterPeer w with
  | None => mret tt
  | Some bp =>
      pc_close (b_pc bp);;
      modify (set_broadcasterPeer None);;
      modify (set_broadcasterWs None);;
      log "Broadcaster cleaned up" "warn"
  end.

Definition sendOfferToViewer (viewerId : string) : M unit :=
  w ← get;
  match JsMap.get viewerId (viewerPeers w) with
  | None => mret tt
  | Some peer =>
      try_catch
        (offer ← createOffer (v_pc peer);
         setLocalDescription (v_pc peer) offer;;
         w ← get;
         safeSend (Some (v_ws peer))
                  (MOffer (pc ← pcs w !! v_pc peer; localDescription pc));;
         log ("Offer sent to viewer " +:+ viewerId) "success")
        (λ e,
           log ("createOffer error [" +:+ viewerId +:+ "]: " +:+ e) "error";;
           cleanupViewer viewerId)
  end.

Definition restartViewerIce (viewerId : string) : M unit :=
  w ← get;
  match JsMap.get viewerId (viewerPeers w) with
  | None => mret tt
  | Some peer =>
      try_catch
        (offer ← createOffer (v_pc peer);
         setLocalDescription (v_pc peer) offer;;
         w ← get;
         safeSend (Some (v_ws peer))
                  (MOffer (pc ← pcs w !! v_pc peer; localDescription pc));;
         log ("ICE restart offer sent to " +:+ viewerId) "info")
        (λ e, log ("ICE restart error [" +:+ viewerId +:+ "]: " +:+ e) "error")
  end.

Definition createViewerPeer (viewerId : string) (ws : nat) : M unit :=
  cleanupViewer viewerId;;
  log ("Creating viewer peer: " +:+ viewerId) "info";;
  pc ← new_pc (OwnViewer viewerId ws);
  modify (λ w, set_viewerPeers (JsMap.set viewerId (mkViewer ws pc) (viewerPeers w)) w);;
  w ← get;
  match bp ← broadcasterPeer w; videoTrack bp with
  | Some track =>
      addTransceiver pc (mkTransceiver (kind track) "sendonly" (Some track));;
      log ("Added existing video track to viewer " +:+ viewerId) "info"
  | None =>
      addTransceiver pc (mkTransceiver "video" "sendonly" None)
  end;;
  sendOfferToViewer viewerId.

Definition createBroadcasterPeer (ws : nat) : M unit :=
  cleanupBroadcaster;;
  log "Creating broadcaster peer (server-side receiver)" "info";;
  pc ← new_pc (OwnBroadcaster ws);
  modify (set_broadcasterPeer (Some (mkBroadcaster ws pc None)));;
  modify (set_broadcasterWs (Some ws));;
  addTransceiver pc (mkTransceiver "video" "recvonly" None).

(** *** Callbacks of a peer connection *)

(** [pc.ontrack] of the broadcaster's connection.  The [then]/[catch]
    callbacks of [replaceTrack] run with the outcome the environment gives
    the call. *)
Definition ontrack (track : Track) : M unit :=
  log ("Broadcaster track received: " +:+ kind track) "success";;
  if negb (String.eqb (kind track) "video") then mret tt
  else
    w ← get;
    match broadcasterPeer w with
    | None => throw "Cannot set properties of null (setting 'videoTrack')"
    | Some bp =>
        modify (set_broadcasterPeer
                  (Some (mkBroadcaster (b_ws bp) (b_pc bp) (Some track))))
    end;;
    w ← get;
    for_each (viewerPeers w) (λ '(viewerId, peer),
      w ← get;
      match find_sender (v_pc peer) w with
      | Some idx =>
          try_catch
            (replaceTrack (v_pc peer) idx track;;
             log ("Track forwarded to viewer " +:+ viewerId) "success")
            (λ e, log ("replaceTrack error [" +:+ viewerId +:+ "]: " +:+ e) "error")
      | None => mret tt
      end);;
    modify (λ w, set_onended ({[track_id track]} ∪ onended w) w).

(** [track.onended] *)
Definition track_onended : M unit :=
  log "Broadcaster video track ended" "warn";;
  w ← get;
  match broadcasterPeer w with
  | Some bp =>
      modify (set_broadcasterPeer (Some (mkBroadcaster (b_ws bp) (b_pc bp) None)))
  | None => mret tt
  end.

(** [pc.onicecandidate], the same for both kinds of connection; [None] is
    the [null] candidate that ends gathering. *)
Definition onicecandidate (ws : nat) (candidate : option string) : M unit :=
  match candidate with
  | Some c => safeSend (Some ws) (MCandidate c);; mret tt
  | None => mret tt
  end.

Definition viewer_oniceconnectionstatechange (viewerId state : string) : M unit :=
  log ("Viewer " +:+ viewerId +:+ " ICE: " +:+ state) "info";;
  if String.eqb state "failed" then restartViewerIce viewerId else mret tt.

Definition viewer_onconnectionstatechange (viewerId state : string) : M unit :=
  log ("Viewer " +:+ viewerId +:+ " conn: " +:+ state) "info";;
  if String.eqb state "failed" || String.eqb state "closed"
  then cleanupViewer viewerId else mret tt.

Definition broadcaster_oniceconnectionstatechange (state : string) : M unit :=
  log ("Broadcaster ICE: " +:+ state) "info".

Definition broadcaster_onconnectionstatechange (state : string) : M unit :=
  log ("Broadcaster conn: " +:+ state) "info";;
  if String.eqb state "failed"
  then notifyAllViewers (MBroadcasterDisconnected false) else mret tt.

(** *** Handlers of a WebSocket connection *)

(** JavaScript truthiness of a string. *)
Definition truthy (s : string) : bool := negb (String.eqb s "").

(** [role === r] for the closure variable [role] ([None] is [null]). *)
Definition role_is (r : option string) (lit : string) : bool :=
  match r with
  | Some s => String.eqb s lit
  | None => false
  end.

(** The broadcaster's offer (lines 245-258). *)
Definition handle_offer (ws : nat) (msg : InMsg) : M unit :=
  w ← get;
  match broadcasterPeer w with
  | None => mret tt
  | Some bp =>
      let pc := b_pc bp in
      try_catch
        (setRemoteDescription pc (m_offer msg);;
         answer ← createAnswer pc;
         setLocalDescription pc answer;;
         w ← get;
         safeSend (Some ws) (MAnswer (p ← pcs w !! pc; localDescription p));;
         log "Broadcaster offer handled, answer sent" "success")
        (λ e, log ("Broadcaster offer error: " +:+ e) "error")
  end.

(** The loop over the buffered candidates (lines 269-273). *)
Definition drain (pc : nat) (pending : list string) : M unit :=
  for_each pending (λ c, try_catch (addIceCandidate pc c) (λ _, mret tt)).

(** The end of the answer handler (lines 275-283): if the broadcaster has a
    track by now, it is put into the viewer's slot. *)
Definition substitute_late_track (id : string) (peer : Viewer) : M unit :=
  w ← get;
  match bp ← broadcasterPeer w; videoTrack bp with
  | Some track =>
      match find_sender (v_pc peer) w with
      | Some idx =>
          try_catch
            (replaceTrack (v_pc peer) idx track;;
             log ("Late track forwarded to viewer " +:+ id) "success")
            (λ e, log ("Late replaceTrack error: " +:+ e) "error")
      | None => mret tt
      end
  | None => mret tt
  end.

(** A viewer's answer (lines 261-288); [viewerId] is the closure variable. *)
Definition handle_answer (viewerId : option string) (msg : InMsg) : M unit :=
  w ← get;
  match id ← viewerId; (λ peer, (id, peer)) <$> JsMap.get id (viewerPeers w) with
  | None => mret tt
  | Some (id, peer) =>
      try_catch
        (setRemoteDescription (v_pc peer) (m_answer msg);;
         log ("Viewer " +:+ id +:+ " answer set") "success";;
         w ← get;
         drain (v_pc peer) (default [] (pendingCandidates w !! id));;
         modify (λ w, set_pendingCandidates (delete id (pendingCandidates w)) w);;
         substitute_late_track id peer)
        (λ e, log ("Viewer answer error [" +:+ id +:+ "]: " +:+ e) "error")
  end.

(** [if (!pendingCandidates.has(viewerId)) pendingCandidates.set(viewerId, []);
    pendingCandidates.get(viewerId).push(candidate)] *)
Definition buffer_candidate (id c : string) : M unit :=
  modify (λ w,
    match pendingCandidates w !! id with
    | None => set_pendingCandidates (<[id := []]> (pendingCandidates w)) w
    | Some _ => w
    end);;
  modify (λ w,
    set_pendingCandidates (alter (λ l, l ++ [c]) id (pendingCandidates w)) w).

(** [peer?.pc.remoteDescription], as a condition. *)
Definition has_remoteDescription (peer : option Viewer) (w : World) : bool :=
  bool_decide (is_Some (p ← peer; pc ← pcs w !! v_pc p; remoteDescription pc)).

(** An ICE candidate from the client (lines 291-304); [r] and [viewerId]
    are the closure variables [role] and [viewerId]. *)
Definition handle_candidate (r viewerId : option string) (msg : InMsg) : M unit :=
  w ← get;
  match (if role_is r "broadcaster" then broadcasterPeer w else None) with
  | Some bp =>
      try_catch (addIceCandidate (b_pc bp) (m_candidate msg)) (λ _, mret tt)
  | None =>
      match (if role_is r "viewer" then viewerId else None) with
      | Some id =>
          if truthy id then
            let peer := JsMap.get id (viewerPeers w) in
            match peer with
            | Some p =>
                if has_remoteDescription peer w then
                  try_catch (addIceCandidate (v_pc p) (m_candidate msg)) (λ _, mret tt)
                else buffer_candidate id (m_candidate msg)
            | None => buffer_candidate id (m_candidate msg)
            end
          else mret tt
      | None => mret tt
      end
  end.

(** [ws.on("message", ...)] for the connection [ws]; [uuid] is what
    [randomUUID()] returns if it is called. *)
Definition on_message (ws : nat) (raw : Raw) (uuid : string) : M unit :=
  match raw with
  | Malformed => mret tt
  | JNull => throw "Cannot read properties of null (reading 'type')"
  | JObj msg =>
      if String.eqb (m_type msg) "register" && String.eqb (m_role msg) "broadcaster" then
        update_socket ws (set_role (Some "broadcaster"));;
        w ← get;
        match broadcasterTimeoutTimer w with
        | Some t => clearTimeout t;; modify (set_broadcasterTimeoutTimer None)
        | None => mret tt
        end;;
        log "Broadcaster registering..." "info";;
        createBroadcasterPeer ws;;
        w ← get;
        safeSend (Some ws) (MRegisteredBroadcaster (length (viewerPeers w)));;
        mret tt
      else if String.eqb (m_type msg) "register" && String.eqb (m_role msg) "viewer" then
        let id := if truthy (m_viewerId msg) then m_viewerId msg else uuid in
        update_socket ws (set_role (Some "viewer"));;
        update_socket ws (set_viewerId (Some id));;
        log ("Viewer registering: " +:+ id) "info";;
        createViewerPeer id ws;;
        safeSend (Some ws) (MRegisteredViewer id);;
        notifyViewerCount;;
        w ← get;
        match broadcasterPeer w with
        | None => safeSend (Some ws) (MBroadcasterDisconnected false);; mret tt
        | Some _ => mret tt
        end
      else
        w ← get;
        let r := s ← sockets w !! ws; role s in
        let vid := s ← sockets w !! ws; viewerId s in
        if String.eqb (m_type msg) "offer" && role_is r "broadcaster" then
          handle_offer ws msg
        else if String.eqb (m_type msg) "answer" && role_is r "viewer" then
          handle_answer vid msg
        else if String.eqb (m_type msg) "candidate" then
          handle_candidate r vid msg
        else mret tt
  end.

(** [ws.on("close", ...)] *)
Definition on_close (ws : nat) : M unit :=
  w ← get;
  let r := s ← sockets w !! ws; role s in
  let vid := s ← sockets w !! ws; viewerId s in
  log ("WS closed (role: " +:+ default "null" r +:+ ", id: "
         +:+ (match vid with
              | Some id => if truthy id then id else "n/a"
              | None => "n/a"
              end) +:+ ")") "info";;
  if role_is r "broadcaster" then
    cleanupBroadcaster;;
    t ← setTimeout BROADCASTER_TIMEOUT;
    modify (set_broadcasterTimeoutTimer (Some t))
  else
    match (if role_is r "viewer" then vid else None) with
    | Some id => if truthy id then cleanupViewer id else mret tt
    | None => mret tt
    end.

(** The callback given to [setTimeout] in the close handler. *)
Definition broadcaster_timeout : M unit :=
  log "Broadcaster timeout - notifying viewers" "warn";;
  notifyAllViewers (MBroadcasterDisconnected false).

(** [shutdown], up to the point where it stops the HTTP server. *)
Definition shutdown : M unit :=
  log "Shutting down..." "info";;
  notifyAllViewers (MBroadcasterDisconnected true);;
  cleanupBroadcaster;;
  w ← get;
  for_each (viewerPeers w) (λ '(id, _), cleanupViewer id).

(** ** Events and the transition function *)

Inductive Event :=
| EvConnection (ip : string)
| EvMessage (ws : nat) (raw : Raw) (uuid : string)
| EvSocketClosing (ws : nat)
| EvSocketError (ws : nat) (message : string)
| EvClose (ws : nat)
| EvTrack (pc : nat) (track : Track)
| EvTrackEnded (track : Track)
| EvIceCandidate (pc : nat) (candidate : option string)
| EvIceConnectionState (pc : nat) (state : string)
| EvConnectionState (pc : nat) (state : string)
| EvTimeout (t : nat)
| EvShutdown.

(** What the runtime calls for an event.  A message or a close event is
    delivered only on a connection that exists and has not been closed, and
    [randomUUID()] is never empty; a socket may start closing before its
    close event is delivered ([readyState] 2); a peer-connection event goes
    to the callbacks installed on that connection; a timer fires once, if it
    was not cleared; [onended] runs for a track that was given the handler. *)
Definition dispatch (ev : Event) : M unit :=
  w ← get;
  match ev with
  | EvConnection ip =>
      log ("New WS connection from " +:+ ip) "info";;
      modify (λ w, set_sockets (sockets w ++ [mkSocket None None 1 []]) w)
  | EvMessage ws raw uuid =>
      match sockets w !! ws with
      | Some s =>
          if bool_decide (readyState s = 3) || negb (truthy uuid) then mret tt
          else on_message ws raw uuid
      | None => mret tt
      end
  | EvSocketClosing ws =>
      update_socket ws (λ s, if bool_decide (readyState s = 1) then set_readyState 2 s else s)
  | EvSocketError ws message =>
      log ("WS error: " +:+ message) "error"
  | EvClose ws =>
      match sockets w !! ws with
      | Some s =>
          if bool_decide (readyState s = 3) then mret tt
          else update_socket ws (set_readyState 3);; on_close ws
      | None => mret tt
      end
  | EvTrack pc track =>
      match pc_owner <$> pcs w !! pc with
      | Some (OwnBroadcaster _) => ontrack track
      | _ => mret tt
      end
  | EvTrackEnded track =>
      if bool_decide (track_id track ∈ onended w) then track_onended else mret tt
  | EvIceCandidate pc candidate =>
      match pc_owner <$> pcs w !! pc with
      | Some (OwnBroadcaster ws) => onicecandidate ws candidate
      | Some (OwnViewer _ ws) => onicecandidate ws candidate
      | None => mret tt
      end
  | EvIceConnectionState pc state =>
      match pc_owner <$> pcs w !! pc with
      | Some (OwnBroadcaster _) => broadcaster_oniceconnectionstatechange state
      | Some (OwnViewer id _) => viewer_oniceconnectionstatechange id state
      | None => mret tt
      end
  | EvConnectionState pc state =>
      match pc_owner <$> pcs w !! pc with
      | Some (OwnBroadcaster _) => broadcaster_onconnectionstatechange state
      | Some (OwnViewer id _) => viewer_onconnectionstatechange id state
      | None => mret tt
      end
  | EvTimeout t =>
      match timers w !! t with
      | Some tm =>
          if pending tm then
            modify (λ w, set_timers (<[t := mkTimer (delay tm) false]> (timers w)) w);;
            broadcaster_timeout
          else mret tt
      | None => mret tt
      end
  | EvShutdown => shutdown
  end.

(** What the [unhandledRejection] listener (for the asynchronous message
    handler) or the [uncaughtException] listener (for the other callbacks)
    logs for an exception that leaves a handler; the stack trace is left
    out. *)
Definition uncaught_line (ev : Event) (e : string) : LogLine :=
  match ev with
  | EvMessage _ _ _ => mkLog ("UnhandledRejection: TypeError: " +:+ e) "error"
  | _ => mkLog ("Uncaught: " +:+ e) "error"
  end.

(** One event, handled to completion. *)
Definition step (w : World) (i : Event * Env) : World :=
  match dispatch i.1 i.2 0 w with
  | (Done _, _, w') => w'
  | (Throw e, _, w') => set_console (console w' ++ [uncaught_line i.1 e]) w'
  end.

Definition run (trace : list (Event * Env)) (w : World) : World :=
  foldl step w trace.

Inductive reachable : World → Prop :=
| reachable_init : reachable init
| reachable_step w i : reachable w → reachable (step w i).

(** * Vocabulary of the statements *)

(** ** Judgements about handlers

    Hoare triples over the handler monad, handlers that only write to sockets
    and the console, and relations between the state before and after. *)

Definition hoare {A} (P : World → Prop) (m : M A) (Q : Result A → World → Prop) : Prop :=
  ∀ env n w, P w → ∀ r n' w', m env n w = (r, n', w') → Q r w'.

Definition keeps {A} (P : World → Prop) (m : M A) : Prop :=
  hoare P m (λ _ w, P w).

Record frame (w w' : World) : Prop := mkFrame {
  fr_broadcasterPeer : broadcasterPeer w' = broadcasterPeer w;
  fr_broadcasterWs : broadcasterWs w' = broadcasterWs w;
  fr_viewerPeers : viewerPeers w' = viewerPeers w;
  fr_pendingCandidates : pendingCandidates w' = pendingCandidates w;
  fr_timer : broadcasterTimeoutTimer w' = broadcasterTimeoutTimer w;
  fr_timers : timers w' = timers w;
  fr_pcs : pcs w' = pcs w;
  fr_onended : onended w' = onended w;
  fr_sockets : ∀ c,
    role <$> sockets w' !! c = role <$> sockets w !! c ∧
    viewerId <$> sockets w' !! c = viewerId <$> sockets w !! c ∧
    readyState <$> sockets w' !! c = readyState <$> sockets w !! c
}.

(** [talks m]: [m] returns normally and its effect is within [frame]. *)
Definition talks {A} (m : M A) : Prop :=
  ∀ env n w, ∃ a n' w', m env n w = (Done a, n', w') ∧ frame w w'.

Definition respects {A} (R : World → World → Prop) (m : M A) : Prop :=
  ∀ env n w r n' w', m env n w = (r, n', w') → R w w'.

(** Every connection is still there and related by [pr] to what it was. *)
Definition pcs_rel (pr : PeerConnection → PeerConnection → Prop) (w w' : World) : Prop :=
  ∀ i pc, pcs w !! i = Some pc → ∃ pc', pcs w' !! i = Some pc' ∧ pr pc pc'.

(** A field is what it was. *)
Definition kept {X} (proj : World → X) (w w' : World) : Prop := proj w' = proj w.

(** ** The registry invariant

    The registry and the peer connections agree: the sessions in the
    registry own open connections, every open connection belongs to the
    session registered for its owner, a viewer's connection has exactly the
    one send-only video transceiver it was created with, and every track the
    server holds is a video track. *)

Definition slots_video (pc : PeerConnection) : Prop :=
  ∀ tr t, tr ∈ transceivers pc → t_track tr = Some t → kind t = "video".

Definition one_sendonly_slot (pc : PeerConnection) : Prop :=
  ∃ t, transceivers pc = [mkTransceiver "video" "sendonly" t].

Record Inv (w : World) : Prop := mkInv {
  inv_broadcaster : ∀ bp, broadcasterPeer w = Some bp →
    ∃ pc, pcs w !! b_pc bp = Some pc ∧
          pc_owner pc = OwnBroadcaster (b_ws bp) ∧ pc_closed pc = false;
  inv_open_broadcaster : ∀ i pc ws,
    pcs w !! i = Some pc → pc_owner pc = OwnBroadcaster ws → pc_closed pc = false →
    ∃ bp, broadcasterPeer w = Some bp ∧ b_pc bp = i;
  inv_viewer : ∀ id peer, (id, peer) ∈ viewerPeers w →
    ∃ pc, pcs w !! v_pc peer = Some pc ∧
          pc_owner pc = OwnViewer id (v_ws peer) ∧ pc_closed pc = false ∧
          one_sendonly_slot pc;
  inv_open_viewer : ∀ i pc id ws,
    pcs w !! i = Some pc → pc_owner pc = OwnViewer id ws → pc_closed pc = false →
    JsMap.get id (viewerPeers w) = Some (mkViewer ws i);
  inv_keys : NoDup (viewerPeers w).*1;
  inv_videoTrack : ∀ bp t,
    broadcasterPeer w = Some bp → videoTrack bp = Some t → kind t = "video";
  inv_slots : ∀ i pc, pcs w !! i = Some pc → slots_video pc
}.

(** A change to a connection that leaves its owner, its open/closed state,
    the shape of its transceivers and the kind of its tracks alone. *)
Record benign (f : PeerConnection → PeerConnection) : Prop := mkBenign {
  bn_owner : ∀ pc, pc_owner (f pc) = pc_owner pc;
  bn_closed : ∀ pc, pc_closed (f pc) = pc_closed pc;
  bn_slot : ∀ pc, one_sendonly_slot pc → one_sendonly_slot (f pc);
  bn_video : ∀ pc, slots_video pc → slots_video (f pc)
}.

(** ** Concrete inputs *)

Definition all_ok : Env := mkEnv (λ _, Ok "sdp").

Definition register (r id : string) : Raw := JObj (mkInMsg "register" r id "" "" "").

Definition offer_msg (sdp : string) : Raw := JObj (mkInMsg "offer" "" "" sdp "" "").

Definition answer_msg (sdp : string) : Raw := JObj (mkInMsg "answer" "" "" "" sdp "").

Definition candidate_msg (c : string) : Raw := JObj (mkInMsg "candidate" "" "" "" "" c).

Definition camera : Track := mkTrack 7 "video".

Definition microphone : Track := mkTrack 8 "audio".

(** A broadcaster on connection 0 and a viewer "x" on connection 1, both
    negotiated, before the broadcaster's track has arrived. *)
Definition negotiated_trace : list (Event * Env) :=
  [ (EvConnection "10.0.0.1", all_ok);
    (EvMessage 0 (register "broadcaster" "") "u0", all_ok);
    (EvConnection "10.0.0.2", all_ok);
    (EvMessage 1 (register "viewer" "x") "u1", all_ok);
    (EvMessage 1 (answer_msg "viewer-answer") "u1", all_ok);
    (EvMessage 0 (offer_msg "broadcaster-offer") "u0", all_ok) ].

(** The same, after the broadcaster's video track has been forwarded. *)
Definition streaming_trace : list (Event * Env) :=
  negotiated_trace ++ [ (EvTrack 0 camera, all_ok) ].

(** Viewer "x" registers again, from a new connection, after having sent a
    candidate that is still buffered. *)
Definition reregister_start : World :=
  run [ (EvConnection "10.0.0.1", all_ok);
        (EvMessage 0 (register "viewer" "x") "u0", all_ok);
        (EvMessage 0 (candidate_msg "c1") "u0", all_ok);
        (EvConnection "10.0.0.2", all_ok) ] init.

Definition first_candidate_fails : Env :=
  mkEnv (λ n, if Nat.eqb n 1 then Err "bad candidate" else Ok "sdp").

(** Viewer "x" has registered and sent two candidates before its answer. *)
Definition two_buffered : World :=
  run [ (EvConnection "10.0.0.2", all_ok);
        (EvMessage 0 (register "viewer" "x") "u0", all_ok);
        (EvMessage 0 (candidate_msg "c1") "u0", all_ok);
        (EvMessage 0 (candidate_msg "c2") "u0", all_ok) ] init.

Definition always_fails : Env := mkEnv (λ _, Err "invalid SDP").

Definition answer_fails : Env :=
  mkEnv (λ n, if Nat.eqb n 1 then Err "no compatible codec" else Ok "sdp").

(** Two connections have registered as broadcaster, one after the other; a
    viewer "x" is watching.  The first connection closes, then the second;
    then a third broadcaster registers. *)
Definition two_closures_trace : list (Event * Env) :=
  [ (EvConnection "10.0.0.1", all_ok);
    (EvMessage 0 (register "broadcaster" "") "u0", all_ok);
    (EvConnection "10.0.0.2", all_ok);
    (EvMessage 1 (register "viewer" "x") "u1", all_ok);
    (EvConnection "10.0.0.1", all_ok);
    (EvMessage 2 (register "broadcaster" "") "u2", all_ok);
    (EvClose 0, all_ok);
    (EvClose 2, all_ok);
    (EvConnection "10.0.0.1", all_ok);
    (EvMessage 3 (register "broadcaster" "") "u3", all_ok) ].

(** ** Registering a viewer *)

(** What [sendOfferToViewer] and [cleanupViewer] may do to a connection:
    set its local description or close it. *)
Definition slot_kept (pc pc' : PeerConnection) : Prop :=
  pc_owner pc' = pc_owner pc ∧ transceivers pc' = transceivers pc ∧
  (pc_closed pc = true → pc_closed pc' = true).

(** No candidate gets buffered for [id]. *)
Definition pending_stays_empty (id : string) (w w' : World) : Prop :=
  pendingCandidates w !! id = None → pendingCandidates w' !! id = None.

(** The entry for [id], if there is one afterwards, is the one from before. *)
Definition entry_shrinks (id : string) (w w' : World) : Prop :=
  ∀ v, JsMap.get id (viewerPeers w') = Some v → JsMap.get id (viewerPeers w) = Some v.

(** The state [cleanupViewer] leaves, up to what it says to the broadcaster. *)
Definition cleaned (id : string) (w : World) : World :=
  match JsMap.get id (viewerPeers w) with
  | Some peer =>
      set_pendingCandidates (delete id (pendingCandidates w))
        (set_viewerPeers (JsMap.delete id (viewerPeers w))
           (set_pcs (alter (set_closed true) (v_pc peer) (pcs w)) w))
  | None => w
  end.

(** What the state is like once [createViewerPeer] has returned. *)
Record viewer_created (id : string) (ws : nat) (w0 w' : World) : Prop := mkCreated {
  vc_slot : ∃ pc,
    pcs w' !! length (pcs w0) = Some pc ∧ pc_owner pc = OwnViewer id ws ∧
    transceivers pc =
      [mkTransceiver "video" "sendonly" (bp ← broadcasterPeer w0; videoTrack bp)];
  vc_old : ∀ old, JsMap.get id (viewerPeers w0) = Some old →
    (∃ pc, pcs w' !! v_pc old = Some pc ∧ pc_closed pc = true) ∧
    pendingCandidates w' !! id = None;
  vc_entry : ∀ peer, JsMap.get id (viewerPeers w') = Some peer →
    peer = mkViewer ws (length (pcs w0))
}.

(** The id a [register] message of a viewer is filed under:
    [msg.viewerId || randomUUID()]. *)
Definition registered_id (msg : InMsg) (uuid : string) : string :=
  if truthy (m_viewerId msg) then m_viewerId msg else uuid.

(** ** Registering a broadcaster *)

(** The connections after [createBroadcasterPeer(ws)]: the previous
    broadcaster's connection, if any, is closed, and a new one with a
    receive-only video transceiver is added. *)
Definition pcs_after_broadcaster (ws : nat) (w : World) : list PeerConnection :=
  match broadcasterPeer w with
  | Some b1 => alter (set_closed true) (b_pc b1) (pcs w)
  | None => pcs w
  end ++ [mkPc (OwnBroadcaster ws) false None None
            [mkTransceiver "video" "recvonly" None] []].

Record broadcaster_created (ws : nat) (w0 w' : World) : Prop := mkBCreated {
  bc_peer : broadcasterPeer w' = Some (mkBroadcaster ws (length (pcs w0)) None);
  bc_ws : broadcasterWs w' = Some ws;
  bc_viewers : viewerPeers w' = viewerPeers w0;
  bc_pending : pendingCandidates w' = pendingCandidates w0;
  bc_pcs : pcs w' = pcs_after_broadcaster ws w0
}.

(** The timers once a broadcaster has registered: the one whose handle was
    in [broadcasterTimeoutTimer] has been cleared. *)
Definition timers_after_register (w : World) : list Timer :=
  match broadcasterTimeoutTimer w with
  | Some t => alter (λ tm, mkTimer (delay tm) false) t (timers w)
  | None => timers w
  end.

(** C1, as the claim has it: once a new broadcaster has registered, no
    viewer's sending slot holds the previous broadcaster's track any more. *)
Definition prior_track_cleared (w w' : World) : Prop :=
  ∀ b1 t, broadcasterPeer w = Some b1 → videoTrack b1 = Some t →
  ∀ id peer pc tr, (id, peer) ∈ viewerPeers w' → pcs w' !! v_pc peer = Some pc →
                   tr ∈ transceivers pc → t_track tr ≠ Some t.

(** ** Forwarding a track *)

(** What [ontrack] may do to a viewer's connection: put [track] into its
    one slot.  The descriptions stay, so nothing is renegotiated. *)
Definition substituted (track : Track) (q q' : PeerConnection) : Prop :=
  remoteDescription q' = remoteDescription q ∧
  localDescription q' = localDescription q ∧
  ∀ t, transceivers q = [mkTransceiver "video" "sendonly" t] →
       ∃ t', transceivers q' = [mkTransceiver "video" "sendonly" t'] ∧
             (t' = t ∨ t' = Some track).

Definition holds_track (track : Track) (peer : Viewer) (w : World) : Prop :=
  ∃ q, pcs w !! v_pc peer = Some q ∧
       transceivers q = [mkTransceiver "video" "sendonly" (Some track)].

(** The loop of [ontrack] over the viewers, when the engine accepts every
    [replaceTrack]. *)
Definition forward (track : Track) : string * Viewer → M unit :=
  λ '(viewerId, peer),
    w ← get;
    match find_sender (v_pc peer) w with
    | Some idx =>
        try_catch
          (replaceTrack (v_pc peer) idx track;;
           log ("Track forwarded to viewer " +:+ viewerId) "success")
          (λ e, log ("replaceTrack error [" +:+ viewerId +:+ "]: " +:+ e) "error")
    | None => mret tt
    end.

(** ** Buffered candidates *)

Definition succeeded (o : Outcome) : bool :=
  match o with
  | Ok _ => true
  | Err _ => false
  end.

(** The calls of [addIceCandidate] made by a drain that starts at the
    environment's [n]-th answer: one per candidate, in order. *)
Fixpoint ice_outcomes (env : Env) (n : nat) (l : list string) : list (string * bool) :=
  match l with
  | [] => []
  | c :: l' => (c, succeeded (oracle env n)) :: ice_outcomes env (S n) l'
  end.

Definition record_calls (calls : list (string * bool)) (pc : PeerConnection) : PeerConnection :=
  set_iceCalls (iceCalls pc ++ calls) pc.

(** C8, as the claim has it: during the step a line at level "error" is
    written to the console. *)
Definition error_logged (w w' : World) : Prop :=
  ∃ line, line ∈ drop (length (console w)) (console w') ∧ log_level line = "error".

(** The candidates [cs] arrive one after the other on connection [ws]. *)
Definition arrivals (ws : nat) (uuid : string) (cs : list (string * Env)) : list (Event * Env) :=
  (λ '(c, e), (EvMessage ws (candidate_msg c) uuid, e)) <$> cs.

(** What the end of the answer handler leaves alone. *)
Definition ice_kept (q q' : PeerConnection) : Prop :=
  remoteDescription q' = remoteDescription q ∧ iceCalls q' = iceCalls q.

(** ** Negotiation errors *)

Definition open_kept (q q' : PeerConnection) : Prop := pc_closed q' = pc_closed q.

(** The sessions are what they were: same broadcaster session, same viewer
    entries, and no connection has been closed. *)
Definition sessions_intact (w w' : World) : Prop :=
  kept broadcasterPeer w w' ∧ kept viewerPeers w w' ∧ pcs_rel open_kept w w'.

(** The [k]-th call into the engine from position [n] is the first that
    fails, with message [e]. *)
Definition fails_at (env : Env) (n k : nat) (e : string) : Prop :=
  (∀ j, j < k → ∃ v, oracle env (n + j) = Ok v) ∧ oracle env (n + k) = Err e.

(** ** The disconnect timer *)

(** The sockets after a round of [notifyAllViewers]: every outbox has only
    grown, and the outbox of an open socket of one of the viewers has
    received [data]. *)
Definition notified (data : OutMsg) (l : list (string * Viewer)) (w w' : World) : Prop :=
  ∀ c s, sockets w !! c = Some s →
    ∃ s' more, sockets w' !! c = Some s' ∧ readyState s' = readyState s ∧
               sent s' = sent s ++ more ∧
               ((∃ id peer, (id, peer) ∈ l ∧ v_ws peer = c) → readyState s = 1 →
                data ∈ more).

(** * Reasoning principles *)

(** ** Facts about [JsMap] *)

Section JsMapFacts.
Context {V : Type}.
Implicit Types (m : list (string * V)) (k : string) (v : V).

Lemma get_Some_elem m k v : JsMap.get k m = Some v → (k, v) ∈ m.
Proof.
  induction m as [|[k' v'] m IH]; simpl; [done|].
  destruct (String.eqb_spec k k') as [->|Hne].
  - intros [= ->]. left.
  - intros H. right. auto.
Qed.

Lemma get_None_keys m k : JsMap.get k m = None ↔ k ∉ m.*1.
Proof.
  induction m as [|[k' v'] m IH]; simpl.
  - split; [intros _; apply not_elem_of_nil|done].
  - destruct (String.eqb_spec k k') as [->|Hne].
    + split; [done|]. intros H. exfalso. apply H. left.
    + rewrite IH, not_elem_of_cons. naive_solver.
Qed.

Lemma elem_get_NoDup m k v : NoDup m.*1 → (k, v) ∈ m → JsMap.get k m = Some v.
Proof.
  induction m as [|[k' v'] m IH]; simpl.
  - intros _ H. by apply elem_of_nil in H.
  - rewrite NoDup_cons. intros [Hk Hnd] [[= -> ->]|Hin]%elem_of_cons.
    + by rewrite String.eqb_refl.
    + destruct (String.eqb_spec k k') as [->|Hne]; [|auto].
      exfalso. apply Hk. apply list_elem_of_fmap. by exists (k', v).
Qed.

Lemma get_set_eq m k v : JsMap.get k (JsMap.set k v m) = Some v.
Proof.
  induction m as [|[k' v'] m IH]; simpl.
  - by rewrite String.eqb_refl.
  - destruct (String.eqb_spec k k') as [->|Hne]; simpl.
    + by rewrite String.eqb_refl.
    + by destruct (String.eqb_spec k k').
Qed.

Lemma get_set_ne m k k' v : k ≠ k' → JsMap.get k' (JsMap.set k v m) = JsMap.get k' m.
Proof.
  intros Hne. induction m as [|[k0 v0] m IH]; simpl.
  - by destruct (String.eqb_spec k' k) as [->|].
  - destruct (String.eqb_spec k k0) as [->|Hne0]; simpl.
    + destruct (String.eqb_spec k' k0) as [->|]; [done|].
      by destruct (String.eqb_spec k' k0).
    + by rewrite IH.
Qed.

Lemma get_delete_eq m k : JsMap.get k (JsMap.delete k m) = None.
Proof.
  induction m as [|[k' v'] m IH]; simpl; [done|].
  destruct (String.eqb_spec k k') as [->|Hne]; simpl; [done|].
  by destruct (String.eqb_spec k k').
Qed.

Lemma get_delete_ne m k k' : k ≠ k' → JsMap.get k' (JsMap.delete k m) = JsMap.get k' m.
Proof.
  intros Hne. induction m as [|[k0 v0] m IH]; simpl; [done|].
  destruct (String.eqb_spec k k0) as [->|Hne0]; simpl.
  - by destruct (String.eqb_spec k' k0) as [->|].
  - by rewrite IH.
Qed.

Lemma elem_delete m k k' v : (k', v) ∈ JsMap.delete k m ↔ k' ≠ k ∧ (k', v) ∈ m.
Proof.
  induction m as [|[k0 v0] m IH]; simpl.
  - split; [by intros ?%elem_of_nil|by intros [_ ?%elem_of_nil]].
  - destruct (String.eqb_spec k k0) as [->|Hne0].
    + rewrite IH, elem_of_cons. naive_solver.
    + rewrite !elem_of_cons, IH. naive_solver.
Qed.

Lemma keys_delete_NoDup m k : NoDup m.*1 → NoDup (JsMap.delete k m).*1.
Proof.
  induction m as [|[k0 v0] m IH]; simpl; [done|].
  rewrite NoDup_cons. intros [Hk Hnd].
  destruct (String.eqb_spec k k0) as [->|Hne0]; simpl; [auto|].
  apply NoDup_cons. split; [|auto].
  intros ([k1 v1] & -> & Hin)%list_elem_of_fmap.
  apply elem_delete in Hin as [_ Hin].
  apply Hk, list_elem_of_fmap. by exists (k1, v1).
Qed.

Lemma set_fresh m k v : JsMap.get k m = None → JsMap.set k v m = m ++ [(k, v)].
Proof.
  induction m as [|[k0 v0] m IH]; simpl; [done|].
  destruct (String.eqb_spec k k0) as [->|Hne0]; [done|].
  intros H. by rewrite IH.
Qed.
End JsMapFacts.

(** ** Hoare triples for handlers *)

Section HoareRules.
Context {A B : Type}.
Implicit Types (P : World → Prop).

Lemma hoare_conseq P P' (Q Q' : Result A → World → Prop) (m : M A) :
  hoare P' m Q' → (∀ w, P w → P' w) → (∀ r w, Q' r w → Q r w) → hoare P m Q.
Proof. intros H HP HQ env n w Hw r n' w' E. eapply HQ, H; eauto. Qed.

Lemma hoare_ret P (Q : Result A → World → Prop) (a : A) :
  (∀ w, P w → Q (Done a) w) → hoare P (mret a) Q.
Proof. intros H env n w Hw r n' w' [= <- <- <-]. auto. Qed.

Lemma hoare_throw P (Q : Result A → World → Prop) e :
  (∀ w, P w → Q (Throw e) w) → hoare P (throw e) Q.
Proof. intros H env n w Hw r n' w' [= <- <- <-]. auto. Qed.

Lemma hoare_bind P (Q' : Result A → World → Prop) (Q : Result B → World → Prop)
    (m : M A) (k : A → M B) :
  hoare P m Q' →
  (∀ a, hoare (Q' (Done a)) (k a) Q) →
  (∀ e w, Q' (Throw e) w → Q (Throw e) w) →
  hoare P (m ≫= k) Q.
Proof.
  intros Hm Hk He env n w Hw r n' w'.
  unfold mbind, M_bind, bind.
  destruct (m env n w) as [[[a|e] n1] w1] eqn:E; specialize (Hm _ _ _ Hw _ _ _ E).
  - intros E'. eapply Hk; eauto.
  - intros [= <- <- <-]. auto.
Qed.

Lemma hoare_get_bind P (Q : Result B → World → Prop) (k : World → M B) :
  (∀ w0, P w0 → hoare (eq w0) (k w0) Q) → hoare P (get ≫= k) Q.
Proof. intros H env n w Hw r n' w' E. exact (H w Hw env n w eq_refl r n' w' E). Qed.

Lemma hoare_modify_bind P (Q : Result B → World → Prop) f (k : M B) :
  hoare (λ w, ∃ w0, P w0 ∧ w = f w0) k Q → hoare P (modify f ≫= λ _, k) Q.
Proof. intros H env n w Hw r n' w' E. eapply (H env n (f w)); [eauto|exact E]. Qed.

Lemma hoare_modify P (Q : Result unit → World → Prop) f :
  (∀ w, P w → Q (Done tt) (f w)) → hoare P (modify f) Q.
Proof. intros H env n w Hw r n' w' [= <- <- <-]. auto. Qed.

Lemma hoare_external_bind P (Q : Result B → World → Prop) (k : string → M B) :
  (∀ v, hoare P (k v) Q) → (∀ e w, P w → Q (Throw e) w) →
  hoare P (external ≫= k) Q.
Proof.
  intros Hk He env n w Hw r n' w'.
  unfold mbind, M_bind, bind, external. destruct (oracle env n) as [v|e].
  - intros E. eapply Hk; eauto.
  - intros [= <- <- <-]. auto.
Qed.

Lemma hoare_try_catch P (Q' Q : Result A → World → Prop) (m : M A) h :
  hoare P m Q' →
  (∀ a w, Q' (Done a) w → Q (Done a) w) →
  (∀ e, hoare (Q' (Throw e)) (h e) Q) →
  hoare P (try_catch m h) Q.
Proof.
  intros Hm Hd Hh env n w Hw r n' w'. unfold try_catch.
  destruct (m env n w) as [[[a|e] n1] w1] eqn:E; specialize (Hm _ _ _ Hw _ _ _ E).
  - intros [= <- <- <-]. auto.
  - intros E'. eapply Hh; eauto.
Qed.
End HoareRules.

(** A loop whose body keeps [P] and does not throw. *)
Lemma hoare_for_each {X} (P : World → Prop) (l : list X) (body : X → M unit) :
  (∀ x, x ∈ l → hoare P (body x) (λ r w, r = Done tt ∧ P w)) →
  hoare P (for_each l body) (λ r w, r = Done tt ∧ P w).
Proof.
  induction l as [|x l IH]; intros Hb; simpl.
  - by apply hoare_ret.
  - eapply hoare_bind.
    + apply Hb. left.
    + intros []. eapply hoare_conseq; [apply IH| |done].
      * intros y Hy. apply Hb. by right.
      * by intros w [_ ?].
    + by intros e w [? _].
Qed.

(** ** Operations that only talk

    [log], [safeSend] and the notification helpers return normally and touch
    nothing but the sockets' outboxes and the console. *)

Lemma frame_refl w : frame w w.
Proof. by split. Qed.

Lemma frame_trans w1 w2 w3 : frame w1 w2 → frame w2 w3 → frame w1 w3.
Proof.
  intros [] []. split; try congruence.
  intros c. specialize (fr_sockets0 c). specialize (fr_sockets1 c).
  intuition congruence.
Qed.

Lemma talks_ret {A} (a : A) : talks (mret a).
Proof. intros env n w. exists a, n, w. split; [done|apply frame_refl]. Qed.

Lemma talks_bind {A B} (m : M A) (k : A → M B) :
  talks m → (∀ a, talks (k a)) → talks (m ≫= k).
Proof.
  intros Hm Hk env n w. destruct (Hm env n w) as (a & n1 & w1 & E & F).
  destruct (Hk a env n1 w1) as (b & n2 & w2 & E' & F').
  exists b, n2, w2. unfold mbind, M_bind, bind. rewrite E. split; [done|].
  by eapply frame_trans.
Qed.

Lemma talks_get_bind {B} (k : World → M B) :
  (∀ w, talks (k w)) → talks (get ≫= k).
Proof. intros Hk env n w. apply (Hk w env n w). Qed.

Lemma talks_for_each {X} (l : list X) (body : X → M unit) :
  (∀ x, talks (body x)) → talks (for_each l body).
Proof.
  intros Hb. induction l as [|x l IH]; simpl.
  - apply talks_ret.
  - apply talks_bind; auto.
Qed.

Lemma talks_log msg level : talks (log msg level).
Proof. intros env n w. by eexists tt, n, _. Qed.

Lemma talks_safeSend ws data : talks (safeSend ws data).
Proof.
  intros env n w. unfold safeSend, mbind, M_bind, bind, get. simpl.
  destruct ws as [c|]; [|eexists _, _, _; split; [done|apply frame_refl]].
  case_bool_decide as Hrs; [|eexists _, _, _; split; [done|apply frame_refl]].
  unfold try_catch, ws_send, mbind, M_bind, bind, external.
  destruct (oracle env n) as [v|e]; simpl.
  - eexists _, _, _. split; [done|]. split; simpl; try done.
    intros c'. destruct (decide (c = c')) as [<-|Hne].
    + rewrite list_lookup_alter_eq. by destruct (sockets w !! c).
    + by rewrite list_lookup_alter_ne.
  - eexists _, _, _. split; [done|]. by split.
Qed.

Lemma talks_notifyViewerCount : talks notifyViewerCount.
Proof.
  apply talks_get_bind. intros w. apply talks_bind; [apply talks_safeSend|].
  intros _. apply talks_ret.
Qed.

Lemma talks_notifyAllViewers data : talks (notifyAllViewers data).
Proof.
  apply talks_get_bind. intros w. apply talks_for_each. intros [id peer].
  apply talks_bind; [apply talks_safeSend|]. intros _. apply talks_ret.
Qed.

Lemma talks_onicecandidate ws candidate : talks (onicecandidate ws candidate).
Proof.
  destruct candidate; simpl; [|apply talks_ret].
  apply talks_bind; [apply talks_safeSend|]. intros _. apply talks_ret.
Qed.

(** A talking operation keeps every assertion that [frame] respects. *)
Lemma hoare_talks {A} (P : World → Prop) (m : M A) :
  talks m → (∀ w w', frame w w' → P w → P w') →
  hoare P m (λ r w, (∃ a, r = Done a) ∧ P w).
Proof.
  intros Hm HP env n w Hw r n' w' E.
  destruct (Hm env n w) as (a & n1 & w1 & E1 & F). rewrite E1 in E.
  injection E as <- <- <-. eauto.
Qed.

(** ** The registry invariant

    [Inv] holds initially and each kind of change the handlers make to the
    state keeps it. *)

Lemma Inv_init : Inv init.
Proof.
  split; simpl; try done.
  - intros id peer H. by apply elem_of_nil in H.
  - constructor.
Qed.

(** The invariant reads four fields only. *)
Lemma Inv_core w w' :
  broadcasterPeer w' = broadcasterPeer w → viewerPeers w' = viewerPeers w →
  pcs w' = pcs w → Inv w → Inv w'.
Proof.
  intros Hb Hv Hp [I1 I2 I3 I4 I5 I6 I7].
  split; rewrite ?Hb, ?Hv, ?Hp; auto.
Qed.

Lemma Inv_frame w w' : frame w w' → Inv w → Inv w'.
Proof. intros []. by apply Inv_core. Qed.

Lemma alter_lookup_inv {X} (f : X → X) (l : list X) i j y :
  alter f i l !! j = Some y → ∃ x, l !! j = Some x ∧ (y = x ∨ (i = j ∧ y = f x)).
Proof.
  destruct (decide (i = j)) as [<-|Hne].
  - rewrite list_lookup_alter_eq. destruct (l !! i) as [x|]; simpl; [|done].
    intros [= <-]. eauto.
  - rewrite list_lookup_alter_ne by done. eauto.
Qed.

Lemma alter_lookup_fwd {X} (f : X → X) (l : list X) i j x :
  l !! j = Some x → ∃ y, alter f i l !! j = Some y ∧ (y = x ∨ (i = j ∧ y = f x)).
Proof.
  intros H. destruct (decide (i = j)) as [<-|Hne].
  - rewrite list_lookup_alter_eq, H. simpl. eauto.
  - rewrite list_lookup_alter_ne by done. eauto.
Qed.

Lemma Inv_alter_pc w i f :
  benign f → Inv w → Inv (set_pcs (alter f i (pcs w)) w).
Proof.
  intros [Bo Bc Bs Bv] [I1 I2 I3 I4 I5 I6 I7]. split; simpl; auto.
  - intros bp Hbp. destruct (I1 bp Hbp) as (pc & Hpc & Ho & Hc).
    destruct (alter_lookup_fwd f _ i _ _ Hpc) as (y & Hy & Hyx).
    exists y. split; [done|]. destruct Hyx as [->|[_ ->]]; rewrite ?Bo, ?Bc; auto.
  - intros j y ws Hy Ho Hc.
    destruct (alter_lookup_inv f _ i _ _ Hy) as (x & Hx & [->|[_ ->]]);
      rewrite ?Bo, ?Bc in *; eauto.
  - intros id peer Hin. destruct (I3 id peer Hin) as (pc & Hpc & Ho & Hc & Hs).
    destruct (alter_lookup_fwd f _ i _ _ Hpc) as (y & Hy & Hyx).
    exists y. split; [done|]. destruct Hyx as [->|[_ ->]]; rewrite ?Bo, ?Bc; auto.
  - intros j y id ws Hy Ho Hc.
    destruct (alter_lookup_inv f _ i _ _ Hy) as (x & Hx & [->|[_ ->]]);
      rewrite ?Bo, ?Bc in *; eauto.
  - intros j y Hy.
    destruct (alter_lookup_inv f _ i _ _ Hy) as (x & Hx & [->|[_ ->]]); eauto.
Qed.

Lemma benign_localDescription d : benign (set_localDescription d).
Proof. by split. Qed.

Lemma benign_remoteDescription d : benign (set_remoteDescription d).
Proof. by split. Qed.

Lemma benign_iceCalls g : benign (λ pc, set_iceCalls (g pc) pc).
Proof. by split. Qed.

Lemma benign_replaceTrack idx t :
  kind t = "video" →
  benign (λ pc, set_transceivers (alter (set_track (Some t)) idx (transceivers pc)) pc).
Proof.
  intros Hk. split; try done.
  - intros pc [t0 Hs]. unfold one_sendonly_slot. simpl. rewrite Hs.
    destruct idx as [|idx]; simpl; eauto.
  - intros pc Hv tr t' Hin Ht. unfold slots_video in Hv. simpl in Hin.
    apply list_elem_of_lookup in Hin as [j Hj].
    destruct (alter_lookup_inv _ _ _ _ _ Hj) as (x & Hx & [->|[_ ->]]).
    + eapply Hv; [|done]. by eapply list_elem_of_lookup_2.
    + simpl in Ht. by injection Ht as <-.
Qed.

Lemma alter_snoc {X} (f : X → X) (l : list X) x :
  alter f (length l) (l ++ [x]) = l ++ [f x].
Proof. induction l as [|y l IH]; simpl; [done|]. f_equal. exact IH. Qed.

Lemma lookup_snoc_inv {X} (l : list X) x j y :
  (l ++ [x]) !! j = Some y → l !! j = Some y ∨ (j = length l ∧ y = x).
Proof. rewrite lookup_snoc_Some. naive_solver. Qed.

(** Closing the connection of a viewer and deleting its entry. *)
Lemma Inv_cleanupViewer w w' id peer :
  Inv w → JsMap.get id (viewerPeers w) = Some peer →
  broadcasterPeer w' = broadcasterPeer w →
  viewerPeers w' = JsMap.delete id (viewerPeers w) →
  pcs w' = alter (set_closed true) (v_pc peer) (pcs w) →
  Inv w'.
Proof.
  intros [I1 I2 I3 I4 I5 I6 I7] Hget Hb Hv Hp.
  destruct (I3 _ _ (get_Some_elem _ _ _ Hget)) as (pc0 & Hpc0 & Ho0 & Hc0 & _).
  split; rewrite ?Hb, ?Hv, ?Hp; auto.
  - intros bp Hbp. destruct (I1 bp Hbp) as (pc & Hpc & Ho & Hc).
    exists pc. split; [|done]. rewrite list_lookup_alter_ne; [done|].
    intros E. rewrite E in Hpc0. congruence.
  - intros j y ws. destruct (decide (v_pc peer = j)) as [<-|Hne].
    + rewrite list_lookup_alter_eq, Hpc0. simpl. by intros [= <-].
    + rewrite list_lookup_alter_ne by done. eauto.
  - intros id' peer' [Hne Hin]%elem_delete.
    destruct (I3 _ _ Hin) as (pc & Hpc & Ho & Hc & Hs).
    exists pc. split; [|done]. rewrite list_lookup_alter_ne; [done|].
    intros E. rewrite E in Hpc0. congruence.
  - intros j y id' ws. destruct (decide (v_pc peer = j)) as [<-|Hne].
    + rewrite list_lookup_alter_eq, Hpc0. simpl. by intros [= <-].
    + rewrite list_lookup_alter_ne by done. intros Hy Ho Hc.
      specialize (I4 _ _ _ _ Hy Ho Hc).
      rewrite get_delete_ne; [done|]. intros <-. rewrite Hget in I4.
      injection I4 as ->. by simpl in Hne.
  - by apply keys_delete_NoDup.
  - intros j y. destruct (decide (v_pc peer = j)) as [<-|Hne].
    + rewrite list_lookup_alter_eq, Hpc0. simpl. intros [= <-].
      apply (I7 _ _ Hpc0).
    + rewrite list_lookup_alter_ne by done. eauto.
Qed.

(** Closing the broadcaster's connection and clearing [broadcasterPeer]. *)
Lemma Inv_cleanupBroadcaster w w' bp :
  Inv w → broadcasterPeer w = Some bp →
  broadcasterPeer w' = None →
  viewerPeers w' = viewerPeers w →
  pcs w' = alter (set_closed true) (b_pc bp) (pcs w) →
  Inv w'.
Proof.
  intros [I1 I2 I3 I4 I5 I6 I7] Hbp Hb Hv Hp.
  destruct (I1 _ Hbp) as (pc0 & Hpc0 & Ho0 & Hc0).
  split; rewrite ?Hb, ?Hv, ?Hp; auto; try done.
  - intros j y ws. destruct (decide (b_pc bp = j)) as [<-|Hne].
    + rewrite list_lookup_alter_eq, Hpc0. simpl. by intros [= <-].
    + rewrite list_lookup_alter_ne by done. intros Hy Ho Hc.
      destruct (I2 _ _ _ Hy Ho Hc) as (bp' & Hbp' & <-). congruence.
  - intros id peer Hin. destruct (I3 _ _ Hin) as (pc & Hpc & Ho & Hc & Hs).
    exists pc. split; [|done]. rewrite list_lookup_alter_ne; [done|].
    intros E. rewrite E in Hpc0. congruence.
  - intros j y id ws. destruct (decide (b_pc bp = j)) as [<-|Hne].
    + rewrite list_lookup_alter_eq, Hpc0. simpl. by intros [= <-].
    + rewrite list_lookup_alter_ne by done. eauto.
  - intros j y. destruct (decide (b_pc bp = j)) as [<-|Hne].
    + rewrite list_lookup_alter_eq, Hpc0. simpl. intros [= <-].
      apply (I7 _ _ Hpc0).
    + rewrite list_lookup_alter_ne by done. eauto.
Qed.

(** A new broadcaster session when there is none. *)
Lemma Inv_new_broadcaster w w' ws :
  Inv w → broadcasterPeer w = None →
  broadcasterPeer w' = Some (mkBroadcaster ws (length (pcs w)) None) →
  viewerPeers w' = viewerPeers w →
  pcs w' = pcs w ++ [mkPc (OwnBroadcaster ws) false None None
                       [mkTransceiver "video" "recvonly" None] []] →
  Inv w'.
Proof.
  intros [I1 I2 I3 I4 I5 I6 I7] Hnone Hb Hv Hp.
  split; rewrite ?Hb, ?Hv, ?Hp; auto.
  - intros bp [= <-]. simpl. eexists.
    split; [by rewrite lookup_app_r, Nat.sub_diag|done].
  - intros j y ws' [Hy|[-> ->]]%lookup_snoc_inv Ho Hc; [|eauto].
    destruct (I2 _ _ _ Hy Ho Hc) as (bp' & Hbp' & _). congruence.
  - intros id peer Hin. destruct (I3 _ _ Hin) as (pc & Hpc & Ho & Hc & Hs).
    exists pc. split; [|done]. by apply lookup_app_l_Some.
  - intros j y id ws' [Hy|[-> ->]]%lookup_snoc_inv Ho Hc; [eauto|done].
  - by intros bp t [= <-].
  - intros j y [Hy|[-> ->]]%lookup_snoc_inv; [eauto|].
    intros tr t [= ->]%list_elem_of_singleton. done.
Qed.

(** A new viewer session under an id that has none. *)
Lemma Inv_new_viewer w w' id ws t :
  Inv w → JsMap.get id (viewerPeers w) = None →
  (∀ t', t = Some t' → kind t' = "video") →
  broadcasterPeer w' = broadcasterPeer w →
  viewerPeers w' = JsMap.set id (mkViewer ws (length (pcs w))) (viewerPeers w) →
  pcs w' = pcs w ++ [mkPc (OwnViewer id ws) false None None
                       [mkTransceiver "video" "sendonly" t] []] →
  Inv w'.
Proof.
  intros [I1 I2 I3 I4 I5 I6 I7] Hnone Ht Hb Hv Hp.
  rewrite set_fresh in Hv by done.
  split; rewrite ?Hb, ?Hv, ?Hp; auto.
  - intros bp Hbp. destruct (I1 bp Hbp) as (pc & Hpc & Ho & Hc).
    exists pc. split; [|done]. by apply lookup_app_l_Some.
  - intros j y ws' [Hy|[-> ->]]%lookup_snoc_inv Ho Hc; [eauto|done].
  - intros id' peer [Hin|[= -> ->]%list_elem_of_singleton]%elem_of_app.
    + destruct (I3 _ _ Hin) as (pc & Hpc & Ho & Hc & Hs).
      exists pc. split; [|done]. by apply lookup_app_l_Some.
    + simpl. eexists. split; [by rewrite lookup_app_r, Nat.sub_diag|].
      repeat split; simpl. by exists t.
  - intros j y id' ws' [Hy|[-> ->]]%lookup_snoc_inv Ho Hc.
    + specialize (I4 _ _ _ _ Hy Ho Hc).
      rewrite <- (set_fresh _ _ (mkViewer ws (length (pcs w)))) by done.
      rewrite get_set_ne; [done|]. intros <-. congruence.
    + injection Ho as <- <-.
      rewrite <- (set_fresh _ _ (mkViewer ws (length (pcs w)))) by done.
      apply get_set_eq.
  - rewrite fmap_app. simpl. apply NoDup_app. split; [done|]. split.
    + intros k Hk ->%list_elem_of_singleton. by apply get_None_keys in Hnone.
    + apply NoDup_singleton.
  - intros j y [Hy|[-> ->]]%lookup_snoc_inv; [eauto|].
    intros tr t' [= ->]%list_elem_of_singleton. simpl. auto.
Qed.

(** Storing a video track in, or clearing the track of, the broadcaster
    session. *)
Lemma Inv_set_videoTrack w w' bp t :
  Inv w → broadcasterPeer w = Some bp →
  (∀ t', t = Some t' → kind t' = "video") →
  broadcasterPeer w' = Some (mkBroadcaster (b_ws bp) (b_pc bp) t) →
  viewerPeers w' = viewerPeers w → pcs w' = pcs w →
  Inv w'.
Proof.
  intros [I1 I2 I3 I4 I5 I6 I7] Hbp Ht Hb Hv Hp.
  split; rewrite ?Hb, ?Hv, ?Hp; auto.
  - intros bp' [= <-]. simpl. auto.
  - intros j y ws Hy Ho Hc. destruct (I2 _ _ _ Hy Ho Hc) as (bp' & Hbp' & <-).
    eexists. split; [done|]. simpl. congruence.
  - intros bp' t' [= <-]. simpl. auto.
Qed.

(** ** Assertions kept by a handler, whatever its outcome *)

Section KeepsRules.
Context {A B : Type} (P : World → Prop).

Lemma keeps_ret (a : A) : keeps P (mret a).
Proof. by apply hoare_ret. Qed.

Lemma keeps_throw e : keeps P (throw (A := A) e).
Proof. by apply hoare_throw. Qed.

Lemma keeps_bind (m : M A) (k : A → M B) :
  keeps P m → (∀ a, keeps P (k a)) → keeps P (m ≫= k).
Proof. intros Hm Hk. eapply hoare_bind; [exact Hm|exact Hk|done]. Qed.

Lemma keeps_get_bind (k : World → M B) :
  (∀ w0, P w0 → keeps P (k w0)) → keeps P (get ≫= k).
Proof. intros H env n w Hw r n' w' E. exact (H w Hw env n w Hw r n' w' E). Qed.

Lemma keeps_modify f : (∀ w, P w → P (f w)) → keeps P (modify f).
Proof. intros H. by apply hoare_modify. Qed.

Lemma keeps_external : keeps P external.
Proof.
  intros env n w Hw r n' w'. unfold external.
  by destruct (oracle env n); intros [= <- <- <-].
Qed.

Lemma keeps_try_catch (m : M A) h :
  keeps P m → (∀ e, keeps P (h e)) → keeps P (try_catch m h).
Proof. intros Hm Hh. eapply hoare_try_catch; [exact Hm|done|exact Hh]. Qed.

Lemma keeps_talks (m : M A) :
  talks m → (∀ w w', frame w w' → P w → P w') → keeps P m.
Proof.
  intros Hm HP. eapply hoare_conseq; [by apply hoare_talks| |]; [done|].
  by intros r w [_ ?].
Qed.
End KeepsRules.

Lemma keeps_for_each {X} P (l : list X) (body : X → M unit) :
  (∀ x, x ∈ l → keeps P (body x)) → keeps P (for_each l body).
Proof.
  induction l as [|x l IH]; intros Hb; simpl.
  - apply keeps_ret.
  - apply keeps_bind; [apply Hb; left|]. intros _. apply IH.
    intros y Hy. apply Hb. by right.
Qed.

(** ** Every handler keeps the invariant *)

Lemma keeps_Inv_core (f : World → World) :
  (∀ w, broadcasterPeer (f w) = broadcasterPeer w) →
  (∀ w, viewerPeers (f w) = viewerPeers w) →
  (∀ w, pcs (f w) = pcs w) →
  keeps Inv (modify f).
Proof. intros Hb Hv Hp. apply keeps_modify. intros w. by apply Inv_core. Qed.

Lemma keeps_Inv_update_pc i f : benign f → keeps Inv (update_pc i f).
Proof. intros Hf. apply keeps_modify. intros w. by apply Inv_alter_pc. Qed.

Lemma keeps_Inv_update_socket c f : keeps Inv (update_socket c f).
Proof. by apply keeps_Inv_core. Qed.

Lemma keeps_Inv_setLocalDescription i d : keeps Inv (setLocalDescription i d).
Proof.
  apply keeps_bind; [apply keeps_external|]. intros _.
  apply keeps_Inv_update_pc, benign_localDescription.
Qed.

Lemma keeps_Inv_setRemoteDescription i d : keeps Inv (setRemoteDescription i d).
Proof.
  apply keeps_bind; [apply keeps_external|]. intros _.
  apply keeps_Inv_update_pc, benign_remoteDescription.
Qed.

Lemma keeps_Inv_addIceCandidate i c : keeps Inv (addIceCandidate i c).
Proof.
  apply keeps_try_catch.
  - apply keeps_bind; [apply keeps_external|]. intros _.
    apply keeps_Inv_update_pc, benign_iceCalls.
  - intros e. apply keeps_bind; [|intros _; apply keeps_throw].
    apply keeps_Inv_update_pc, benign_iceCalls.
Qed.

Lemma keeps_Inv_replaceTrack i idx t :
  kind t = "video" → keeps Inv (replaceTrack i idx t).
Proof.
  intros Hk. apply keeps_bind; [apply keeps_external|]. intros _.
  by apply keeps_Inv_update_pc, benign_replaceTrack.
Qed.

Lemma keeps_Inv_drain i l : keeps Inv (drain i l).
Proof.
  apply keeps_for_each. intros c _. apply keeps_try_catch.
  - apply keeps_Inv_addIceCandidate.
  - intros _. apply keeps_ret.
Qed.

Lemma cleanupViewer_Inv id :
  hoare Inv (cleanupViewer id)
    (λ r w, r = Done tt ∧ Inv w ∧ JsMap.get id (viewerPeers w) = None).
Proof.
  apply hoare_get_bind. intros w0 H0.
  destruct (JsMap.get id (viewerPeers w0)) as [peer|] eqn:E.
  - unfold pc_close, update_pc.
    do 3 apply hoare_modify_bind.
    eapply hoare_conseq;
      [apply hoare_talks
         with (P := λ w, Inv w ∧ JsMap.get id (viewerPeers w) = None)| |].
    + repeat first [ apply talks_log | apply talks_notifyViewerCount
                   | apply talks_get_bind; intros ?
                   | apply talks_bind; [|intros ?] ].
    + intros w w' F [HI Hg]. split; [by eapply Inv_frame|].
      by rewrite (fr_viewerPeers _ _ F).
    + intros w (w3 & (w2 & (w1 & <- & ->) & ->) & ->). split.
      * by eapply Inv_cleanupViewer.
      * simpl. apply get_delete_eq.
    + intros r w [[[] ->] ?]. done.
  - apply hoare_ret. by intros w <-.
Qed.

Lemma keeps_Inv_cleanupViewer id : keeps Inv (cleanupViewer id).
Proof. eapply hoare_conseq; [apply cleanupViewer_Inv|done|]. by intros r w (_ & ? & _). Qed.

Lemma cleanupBroadcaster_Inv :
  hoare Inv cleanupBroadcaster (λ r w, r = Done tt ∧ Inv w ∧ broadcasterPeer w = None).
Proof.
  apply hoare_get_bind. intros w0 H0.
  destruct (broadcasterPeer w0) as [bp|] eqn:E.
  - unfold pc_close, update_pc. do 3 apply hoare_modify_bind.
    apply hoare_modify.
    intros w (w3 & (w2 & (w1 & <- & ->) & ->) & ->). split; [done|]. split; [|done].
    by eapply Inv_cleanupBroadcaster.
  - apply hoare_ret. by intros w <-.
Qed.

Lemma keeps_Inv_cleanupBroadcaster : keeps Inv cleanupBroadcaster.
Proof.
  eapply hoare_conseq; [apply cleanupBroadcaster_Inv|done|]. by intros r w (_ & ? & _).
Qed.

Lemma hoare_talks_post {A} (P0 P : World → Prop) (m : M A) :
  talks m → (∀ w w', frame w w' → P w → P w') → (∀ w, P0 w → P w) →
  hoare P0 m (λ _ w, P w).
Proof. intros Hm HP H0. eapply hoare_conseq; [by apply (keeps_talks P)|done|done]. Qed.

Lemma hoare_new_pc_bind {B} P (Q : Result B → World → Prop) o (k : nat → M B) :
  (∀ w0, P w0 →
     hoare (eq (set_pcs (pcs w0 ++ [mkPc o false None None [] []]) w0))
           (k (length (pcs w0))) Q) →
  hoare P (new_pc o ≫= k) Q.
Proof. intros H env n w Hw r n' w' E. exact (H w Hw env n _ eq_refl r n' w' E). Qed.

Lemma hoare_modify_pinned {B} (Q : Result B → World → Prop) f (k : M B) w0 :
  hoare (eq (f w0)) k Q → hoare (eq w0) (modify f ≫= λ _, k) Q.
Proof. intros H env n w <- r n' w' E. exact (H env n _ eq_refl r n' w' E). Qed.

Ltac talk_auto :=
  repeat lazymatch goal with
  | |- talks (log _ _) => apply talks_log
  | |- talks (safeSend _ _) => apply talks_safeSend
  | |- talks notifyViewerCount => apply talks_notifyViewerCount
  | |- talks (notifyAllViewers _) => apply talks_notifyAllViewers
  | |- talks (onicecandidate _ _) => apply talks_onicecandidate
  | |- talks (mret _) => apply talks_ret
  | |- talks (get ≫= _) => apply talks_get_bind; intros ?
  | |- talks (_ ≫= _) => apply talks_bind; [|intros ?]
  end.

Ltac keeps_Inv_step :=
  lazymatch goal with
  | |- keeps _ (mret _) => apply keeps_ret
  | |- keeps _ (throw _) => apply keeps_throw
  | |- keeps _ external => apply keeps_external
  | |- keeps _ (setLocalDescription _ _) => apply keeps_Inv_setLocalDescription
  | |- keeps _ (setRemoteDescription _ _) => apply keeps_Inv_setRemoteDescription
  | |- keeps _ (addIceCandidate _ _) => apply keeps_Inv_addIceCandidate
  | |- keeps _ (drain _ _) => apply keeps_Inv_drain
  | |- keeps _ (cleanupViewer _) => apply keeps_Inv_cleanupViewer
  | |- keeps _ cleanupBroadcaster => apply keeps_Inv_cleanupBroadcaster
  | |- keeps _ (update_socket _ _) => apply keeps_Inv_update_socket
  | |- keeps _ (modify _) => apply keeps_Inv_core; done
  | |- keeps _ (log _ _) => apply keeps_talks; [apply talks_log|apply Inv_frame]
  | |- keeps _ (safeSend _ _) => apply keeps_talks; [apply talks_safeSend|apply Inv_frame]
  | |- keeps _ notifyViewerCount =>
      apply keeps_talks; [apply talks_notifyViewerCount|apply Inv_frame]
  | |- keeps _ (notifyAllViewers _) =>
      apply keeps_talks; [apply talks_notifyAllViewers|apply Inv_frame]
  | |- keeps _ (onicecandidate _ _) =>
      apply keeps_talks; [apply talks_onicecandidate|apply Inv_frame]
  | |- keeps _ (try_catch _ _) => apply keeps_try_catch; [|intros ?]
  | |- keeps _ (get ≫= _) => apply keeps_get_bind; intros ? ?
  | |- keeps _ (_ ≫= _) => apply keeps_bind; [|intros ?]
  end.

Lemma keeps_Inv_sendOfferToViewer id : keeps Inv (sendOfferToViewer id).
Proof.
  apply keeps_get_bind. intros w0 H0.
  destruct (JsMap.get id (viewerPeers w0)) as [peer|]; [|apply keeps_ret].
  unfold createOffer. repeat keeps_Inv_step.
Qed.

Lemma keeps_Inv_restartViewerIce id : keeps Inv (restartViewerIce id).
Proof.
  apply keeps_get_bind. intros w0 H0.
  destruct (JsMap.get id (viewerPeers w0)) as [peer|]; [|apply keeps_ret].
  unfold createOffer. repeat keeps_Inv_step.
Qed.

Lemma keeps_Inv_createViewerPeer id ws : keeps Inv (createViewerPeer id ws).
Proof.
  unfold createViewerPeer.
  eapply hoare_bind; [apply cleanupViewer_Inv| |by intros e w (_ & ? & _)].
  intros []. eapply hoare_bind with
    (Q' := λ _ w, Inv w ∧ JsMap.get id (viewerPeers w) = None).
  { apply hoare_talks_post; [apply talks_log| |by intros w (_ & ? & ?)].
    intros w w' F [HI Hg]. split; [by eapply Inv_frame|].
    rewrite (fr_viewerPeers _ _ F). exact Hg. }
  2: by intros e w [? _].
  intros []. apply hoare_new_pc_bind. intros w0 [H0 Hnone].
  apply hoare_modify_pinned. apply hoare_get_bind. intros w1 <-.
  eapply hoare_bind with (Q' := λ _ w, Inv w); [|intros []; apply keeps_Inv_sendOfferToViewer|done].
  simpl. destruct (broadcasterPeer w0) as [bp|] eqn:Ebp; simpl.
  - destruct (videoTrack bp) as [t|] eqn:Et.
    + unfold addTransceiver, update_pc. apply hoare_modify_pinned.
      apply hoare_modify. intros w <-. simpl.
      eapply (Inv_new_viewer w0 _ id ws (Some t)); [done|done| |done|done|].
      * intros t' [= <-]. by eapply inv_videoTrack.
      * simpl. rewrite alter_snoc. simpl.
        by rewrite (inv_videoTrack _ H0 _ _ Ebp Et).
    + unfold addTransceiver, update_pc. apply hoare_modify. intros w <-. simpl.
      eapply (Inv_new_viewer w0 _ id ws None); [done|done|done|done|done|].
      simpl. by rewrite alter_snoc.
  - unfold addTransceiver, update_pc. apply hoare_modify. intros w <-. simpl.
    eapply (Inv_new_viewer w0 _ id ws None); [done|done|done|done|done|].
    simpl. by rewrite alter_snoc.
Qed.

Lemma keeps_Inv_createBroadcasterPeer ws : keeps Inv (createBroadcasterPeer ws).
Proof.
  unfold createBroadcasterPeer.
  eapply hoare_bind; [apply cleanupBroadcaster_Inv| |by intros e w (_ & ? & _)].
  intros []. eapply hoare_bind with
    (Q' := λ _ w, Inv w ∧ broadcasterPeer w = None).
  { apply hoare_talks_post; [apply talks_log| |by intros w (_ & ? & ?)].
    intros w w' F [HI Hg]. split; [by eapply Inv_frame|].
    rewrite (fr_broadcasterPeer _ _ F). exact Hg. }
  2: by intros e w [? _].
  intros []. apply hoare_new_pc_bind. intros w0 [H0 Hnone].
  do 2 apply hoare_modify_pinned.
  unfold addTransceiver, update_pc. apply hoare_modify. intros w <-. simpl.
  eapply (Inv_new_broadcaster w0 _ ws); [done|done|done|done|].
  simpl. by rewrite alter_snoc.
Qed.

Lemma keeps_Inv_ontrack track : keeps Inv (ontrack track).
Proof.
  unfold ontrack. apply keeps_bind; [keeps_Inv_step|]. intros [].
  destruct (String.eqb_spec (kind track) "video") as [Hk|Hk]; simpl;
    [|apply keeps_ret].
  apply hoare_get_bind. intros w0 H0.
  eapply hoare_bind with (Q' := λ _ w, Inv w); [| |done].
  { destruct (broadcasterPeer w0) as [bp|] eqn:Ebp;
      [|apply hoare_throw; by intros w <-].
    apply hoare_modify. intros w <-.
    eapply (Inv_set_videoTrack w0 _ bp (Some track)); try done.
    by intros t' [= <-]. }
  intros []. apply keeps_get_bind. intros w1 H1. apply keeps_bind.
  - apply keeps_for_each. intros [id peer] _.
    apply keeps_get_bind. intros w2 H2.
    destruct (find_sender (v_pc peer) w2) as [idx|]; [|apply keeps_ret].
    apply keeps_try_catch.
    + apply keeps_bind; [by apply keeps_Inv_replaceTrack|]. intros [].
      keeps_Inv_step.
    + intros e. keeps_Inv_step.
  - intros []. by apply keeps_Inv_core.
Qed.

Lemma keeps_Inv_track_onended : keeps Inv track_onended.
Proof.
  unfold track_onended. apply keeps_bind; [keeps_Inv_step|]. intros [].
  intros env n w Hw r n' w'. unfold mbind, M_bind, bind, get.
  destruct (broadcasterPeer w) as [bp|] eqn:Ebp; intros [= <- <- <-]; [|done].
  by eapply (Inv_set_videoTrack w _ bp None).
Qed.

Lemma keeps_Inv_handle_offer ws msg : keeps Inv (handle_offer ws msg).
Proof.
  apply keeps_get_bind. intros w0 H0.
  destruct (broadcasterPeer w0) as [bp|]; [|apply keeps_ret].
  unfold createAnswer. repeat keeps_Inv_step.
Qed.

Lemma keeps_Inv_handle_answer vid msg : keeps Inv (handle_answer vid msg).
Proof.
  apply keeps_get_bind. intros w0 H0.
  destruct (vid ≫= _) as [[id peer]|]; [|apply keeps_ret].
  apply keeps_try_catch; [|intros e; keeps_Inv_step].
  do 2 (apply keeps_bind; [keeps_Inv_step|intros ?]).
  apply keeps_get_bind. intros w' H'.
  do 2 (apply keeps_bind; [keeps_Inv_step|intros ?]).
  unfold substitute_late_track. apply keeps_get_bind. intros w1 H1.
  destruct (broadcasterPeer w1) as [bp|] eqn:Ebp; simpl; [|apply keeps_ret].
  destruct (videoTrack bp) as [t|] eqn:Et; [|apply keeps_ret].
  destruct (find_sender (v_pc peer) w1) as [idx|]; [|apply keeps_ret].
  apply keeps_try_catch; [|intros e; keeps_Inv_step].
  apply keeps_bind; [|intros ?; keeps_Inv_step].
  apply keeps_Inv_replaceTrack. by eapply inv_videoTrack.
Qed.

Lemma keeps_Inv_buffer_candidate id c : keeps Inv (buffer_candidate id c).
Proof.
  apply keeps_bind; [|intros ?; keeps_Inv_step].
  apply keeps_Inv_core; intros w; by destruct (pendingCandidates w !! id).
Qed.

Lemma keeps_Inv_handle_candidate r vid msg : keeps Inv (handle_candidate r vid msg).
Proof.
  apply keeps_get_bind. intros w0 H0.
  destruct (if role_is r "broadcaster" then _ else _) as [bp|].
  { repeat keeps_Inv_step. }
  destruct (if role_is r "viewer" then _ else _) as [id|]; [|apply keeps_ret].
  destruct (truthy id); [|apply keeps_ret].
  simpl. destruct (JsMap.get id (viewerPeers w0)) as [p|];
    [|apply keeps_Inv_buffer_candidate].
  destruct (has_remoteDescription (Some p) w0); [|apply keeps_Inv_buffer_candidate].
  repeat keeps_Inv_step.
Qed.

Lemma keeps_Inv_clearTimeout t : keeps Inv (clearTimeout t).
Proof. by apply keeps_Inv_core. Qed.

Lemma keeps_Inv_setTimeout d : keeps Inv (setTimeout d).
Proof. apply keeps_get_bind. intros w0 H0. repeat keeps_Inv_step. Qed.

Lemma keeps_Inv_on_message ws raw uuid : keeps Inv (on_message ws raw uuid).
Proof.
  destruct raw as [| |msg]; simpl; [apply keeps_ret|apply keeps_throw|].
  destruct (_ && _).
  { apply keeps_bind; [keeps_Inv_step|intros ?].
    apply keeps_get_bind. intros w0 H0. apply keeps_bind.
    { destruct (broadcasterTimeoutTimer w0); [|apply keeps_ret].
      apply keeps_bind; [apply keeps_Inv_clearTimeout|intros ?]. keeps_Inv_step. }
    intros ?. apply keeps_bind; [keeps_Inv_step|intros ?].
    apply keeps_bind; [apply keeps_Inv_createBroadcasterPeer|intros ?].
    repeat keeps_Inv_step. }
  destruct (_ && _).
  { do 3 (apply keeps_bind; [keeps_Inv_step|intros ?]).
    apply keeps_bind; [apply keeps_Inv_createViewerPeer|intros ?].
    do 2 (apply keeps_bind; [keeps_Inv_step|intros ?]).
    apply keeps_get_bind. intros w0 H0.
    destruct (broadcasterPeer w0); repeat keeps_Inv_step. }
  apply keeps_get_bind. intros w0 H0.
  destruct (_ && _); [apply keeps_Inv_handle_offer|].
  destruct (_ && _); [apply keeps_Inv_handle_answer|].
  destruct (String.eqb _ _); [apply keeps_Inv_handle_candidate|apply keeps_ret].
Qed.

Lemma keeps_Inv_on_close ws : keeps Inv (on_close ws).
Proof.
  apply keeps_get_bind. intros w0 H0. simpl.
  apply keeps_bind; [keeps_Inv_step|intros ?].
  destruct (role_is _ "broadcaster").
  { apply keeps_bind; [keeps_Inv_step|intros ?].
    apply keeps_bind; [apply keeps_Inv_setTimeout|intros ?]. keeps_Inv_step. }
  destruct (if role_is _ "viewer" then _ else _) as [id|]; [|apply keeps_ret].
  destruct (truthy id); keeps_Inv_step.
Qed.

Lemma keeps_Inv_shutdown : keeps Inv shutdown.
Proof.
  unfold shutdown. do 3 (apply keeps_bind; [keeps_Inv_step|intros ?]).
  apply keeps_get_bind. intros w0 H0. apply keeps_for_each.
  intros [id peer] _. keeps_Inv_step.
Qed.

Lemma keeps_Inv_dispatch ev : keeps Inv (dispatch ev).
Proof.
  apply keeps_get_bind. intros w0 H0. destruct ev; simpl.
  - repeat keeps_Inv_step.
  - destruct (sockets w0 !! ws) as [s|]; [|apply keeps_ret].
    destruct (_ || _); [apply keeps_ret|apply keeps_Inv_on_message].
  - keeps_Inv_step.
  - keeps_Inv_step.
  - destruct (sockets w0 !! ws) as [s|]; [|apply keeps_ret].
    case_bool_decide; [apply keeps_ret|].
    apply keeps_bind; [keeps_Inv_step|intros ?]. apply keeps_Inv_on_close.
  - destruct (pc_owner <$> pcs w0 !! pc) as [[]|];
      [apply keeps_Inv_ontrack|apply keeps_ret..].
  - case_bool_decide; [apply keeps_Inv_track_onended|apply keeps_ret].
  - destruct (pc_owner <$> pcs w0 !! pc) as [[]|]; keeps_Inv_step.
  - destruct (pc_owner <$> pcs w0 !! pc) as [[]|]; [| |apply keeps_ret].
    + unfold broadcaster_oniceconnectionstatechange. keeps_Inv_step.
    + unfold viewer_oniceconnectionstatechange.
      apply keeps_bind; [keeps_Inv_step|intros ?].
      destruct (String.eqb _ _); [apply keeps_Inv_restartViewerIce|apply keeps_ret].
  - destruct (pc_owner <$> pcs w0 !! pc) as [[]|]; [| |apply keeps_ret].
    + unfold broadcaster_onconnectionstatechange.
      apply keeps_bind; [keeps_Inv_step|intros ?].
      destruct (String.eqb _ _); keeps_Inv_step.
    + unfold viewer_onconnectionstatechange.
      apply keeps_bind; [keeps_Inv_step|intros ?].
      destruct (_ || _); keeps_Inv_step.
  - destruct (timers w0 !! t) as [tm|]; [|apply keeps_ret].
    destruct (pending tm); [|apply keeps_ret].
    apply keeps_bind; [keeps_Inv_step|intros ?].
    unfold broadcaster_timeout. repeat keeps_Inv_step.
  - apply keeps_Inv_shutdown.
Qed.

Lemma Inv_step w i : Inv w → Inv (step w i).
Proof.
  intros Hw. unfold step.
  destruct (dispatch i.1 i.2 0 w) as [[r n'] w'] eqn:E.
  pose proof (keeps_Inv_dispatch _ _ _ _ Hw _ _ _ E) as Hw'.
  simpl in Hw'. destruct r; [done|]. by eapply Inv_core; [..|exact Hw'].
Qed.

Theorem reachable_Inv w : reachable w → Inv w.
Proof. induction 1; [apply Inv_init|by apply Inv_step]. Qed.

(** ** Relations between the state before and after a handler *)

Section RespectsRules.
Context (R : World → World → Prop) `{!Reflexive R, !Transitive R}.
Context {A B : Type}.

Lemma respects_ret (a : A) : respects R (mret a).
Proof. by intros env n w r n' w' [= <- <- <-]. Qed.

Lemma respects_throw e : respects R (throw (A := A) e).
Proof. by intros env n w r n' w' [= <- <- <-]. Qed.

Lemma respects_external : respects R external.
Proof.
  intros env n w r n' w'. unfold external.
  by destruct (oracle env n); intros [= <- <- <-].
Qed.

Lemma respects_modify f : (∀ w, R w (f w)) → respects R (modify f).
Proof. intros H env n w r n' w' [= <- <- <-]. apply H. Qed.

Lemma respects_bind (m : M A) (k : A → M B) :
  respects R m → (∀ a, respects R (k a)) → respects R (m ≫= k).
Proof.
  intros Hm Hk env n w r n' w'. unfold mbind, M_bind, bind.
  destruct (m env n w) as [[[a|e] n1] w1] eqn:E; specialize (Hm _ _ _ _ _ _ E).
  - intros E'. etrans; [exact Hm|]. eapply Hk, E'.
  - by intros [= <- <- <-].
Qed.

Lemma respects_get_bind (k : World → M B) :
  (∀ w0, respects R (k w0)) → respects R (get ≫= k).
Proof. intros H env n w r n' w' E. exact (H w env n w r n' w' E). Qed.

Lemma respects_try_catch (m : M A) h :
  respects R m → (∀ e, respects R (h e)) → respects R (try_catch m h).
Proof.
  intros Hm Hh env n w r n' w'. unfold try_catch.
  destruct (m env n w) as [[[a|e] n1] w1] eqn:E; specialize (Hm _ _ _ _ _ _ E).
  - by intros [= <- <- <-].
  - intros E'. etrans; [exact Hm|]. eapply Hh, E'.
Qed.

Lemma respects_for_each {X} (l : list X) (body : X → M unit) :
  (∀ x, respects R (body x)) → respects R (for_each l body).
Proof.
  intros Hb. induction l as [|x l IH]; simpl.
  - by intros env n w r n' w' [= <- <- <-].
  - intros env n w r n' w'. unfold mbind, M_bind, bind.
    destruct (body x env n w) as [[[a|e] n1] w1] eqn:E;
      specialize (Hb _ _ _ _ _ _ _ E).
    + intros E'. etrans; [exact Hb|]. eapply IH, E'.
    + by intros [= <- <- <-].
Qed.
End RespectsRules.

Lemma respects_and {A} (R1 R2 : World → World → Prop) (m : M A) :
  respects R1 m → respects R2 m → respects (λ w w', R1 w w' ∧ R2 w w') m.
Proof. intros H1 H2 env n w r n' w' E. split; [eapply H1|eapply H2]; exact E. Qed.

Ltac head_of t :=
  lazymatch t with
  | ?f _ => head_of f
  | _ => constr:(t)
  end.

(** A handler is taken apart down to its [modify] steps; [leaf] proves the
    relation for each of them. *)
Ltac respects_go leaf :=
  repeat lazymatch goal with
  | |- respects _ (mret _) => apply respects_ret; tc_solve
  | |- respects _ (throw _) => apply respects_throw; tc_solve
  | |- respects _ external => apply respects_external; tc_solve
  | |- respects _ (modify _) => apply respects_modify; [intros ?; leaf]
  | |- respects _ (try_catch _ _) =>
      apply respects_try_catch; try tc_solve; [|intros ?]
  | |- respects _ (for_each _ _) =>
      apply respects_for_each; try tc_solve; intros ?
  | |- respects _ (get ≫= _) => apply respects_get_bind; intros ?
  | |- respects _ (_ ≫= _) => apply respects_bind; try tc_solve; [|intros ?]
  | |- respects _ (match ?x with _ => _ end) => destruct x
  | |- respects _ ?m => let h := head_of m in unfold h
  end.

(** *** The relations used below *)

Global Instance pcs_rel_refl pr : Reflexive pr → Reflexive (pcs_rel pr).
Proof. intros ? w i pc H. eauto. Qed.

Global Instance pcs_rel_trans pr : Transitive pr → Transitive (pcs_rel pr).
Proof.
  intros ? w1 w2 w3 H12 H23 i pc H.
  destruct (H12 _ _ H) as (pc2 & H2 & ?). destruct (H23 _ _ H2) as (pc3 & H3 & ?).
  exists pc3. split; [done|]. by etrans.
Qed.

Lemma pcs_rel_same pr `{!Reflexive pr} w w' : pcs w' = pcs w → pcs_rel pr w w'.
Proof. intros E i pc H. rewrite E. eauto. Qed.

Lemma pcs_rel_alter pr `{!Reflexive pr} w w' j f :
  pcs w' = alter f j (pcs w) → (∀ pc, pr pc (f pc)) → pcs_rel pr w w'.
Proof.
  intros E Hf i pc H. rewrite E.
  destruct (alter_lookup_fwd f _ j _ _ H) as (y & Hy & [->|[_ ->]]); eauto.
Qed.

Lemma pcs_rel_snoc pr `{!Reflexive pr} w w' x :
  pcs w' = pcs w ++ [x] → pcs_rel pr w w'.
Proof. intros E i pc H. rewrite E. exists pc. split; [by apply lookup_app_l_Some|done]. Qed.

Global Instance kept_refl {X} (proj : World → X) : Reflexive (kept proj).
Proof. by intros w. Qed.

Global Instance kept_trans {X} (proj : World → X) : Transitive (kept proj).
Proof. unfold kept. intros w1 w2 w3. congruence. Qed.

Ltac pcs_leaf :=
  first
    [ apply pcs_rel_same; [tc_solve|done]
    | eapply pcs_rel_alter; [tc_solve|simpl; reflexivity|intros ?; done]
    | eapply pcs_rel_snoc; [tc_solve|simpl; reflexivity]
    | match goal with
      | |- pcs_rel _ _ (match ?x with _ => _ end) =>
          destruct x; apply pcs_rel_same; [tc_solve|done]
      end ].

Ltac kept_leaf :=
  unfold kept; simpl;
  first [ done | match goal with |- context [match ?x with _ => _ end] => by destruct x end ].

(** ** Running a handler by hand *)

Lemma eval_get_bind {B} (k : World → M B) env n w :
  (get ≫= k) env n w = k w env n w.
Proof. reflexivity. Qed.

Lemma eval_modify_bind {B} f (k : unit → M B) env n w :
  (modify f ≫= k) env n w = k tt env n (f w).
Proof. reflexivity. Qed.

Lemma eval_ret_bind {A B} (a : A) (k : A → M B) env n w :
  (mret a ≫= k) env n w = k a env n w.
Proof. reflexivity. Qed.

Lemma eval_bind {A B} (m : M A) (k : A → M B) env n w a n' w' :
  m env n w = (Done a, n', w') → (m ≫= k) env n w = k a env n' w'.
Proof. intros E. unfold mbind, M_bind, bind. by rewrite E. Qed.

Lemma eval_bind_throw {A B} (m : M A) (k : A → M B) env n w e n' w' :
  m env n w = (Throw e, n', w') → (m ≫= k) env n w = (Throw e, n', w').
Proof. intros E. unfold mbind, M_bind, bind. by rewrite E. Qed.

(** ** From handlers to steps *)

Lemma reachable_run trace w : reachable w → reachable (run trace w).
Proof.
  revert w. induction trace as [|i trace IH]; intros w Hw; simpl; [done|].
  apply IH. by constructor.
Qed.

Lemma step_post w i (Q : World → Prop) :
  (∀ l w', Q w' → Q (set_console l w')) →
  hoare (eq w) (dispatch i.1) (λ _ w', Q w') → Q (step w i).
Proof.
  intros Hc H. unfold step.
  destruct (dispatch i.1 i.2 0 w) as [[r n'] w'] eqn:E.
  specialize (H _ _ _ eq_refl _ _ _ E). simpl in H. destruct r; auto.
Qed.

Lemma step_respects (R : World → World → Prop) w i :
  (∀ l w', R w w' → R w (set_console l w')) →
  respects R (dispatch i.1) → R w (step w i).
Proof.
  intros Hc H. unfold step.
  destruct (dispatch i.1 i.2 0 w) as [[r n'] w'] eqn:E.
  specialize (H _ _ _ _ _ _ E). destruct r; auto.
Qed.

Lemma set_console_same w : set_console (console w) w = w.
Proof. by destruct w. Qed.

(** * The claims *)

(** ** C10: tracks that are not video *)

(** C10. In every reachable state the track stored in [videoTrack] and the
    track in every sender slot of every peer connection have kind "video";
    and a track event with any other kind changes nothing but the console. *)
Theorem C10_non_video_track_ignored w :
  reachable w →
  (∀ bp t, broadcasterPeer w = Some bp → videoTrack bp = Some t → kind t = "video") ∧
  (∀ i pc tr t, pcs w !! i = Some pc → tr ∈ transceivers pc →
                t_track tr = Some t → kind t = "video") ∧
  (∀ pc track env, kind track ≠ "video" →
     ∃ lines, step w (EvTrack pc track, env) = set_console (console w ++ lines) w).
Proof.
  intros Hw. pose proof (reachable_Inv _ Hw) as HI. split; [|split].
  - apply (inv_videoTrack _ HI).
  - intros i pc tr t Hpc. apply (inv_slots _ HI _ _ Hpc).
  - intros pc track env Hk. unfold step, dispatch. simpl.
    unfold mbind, M_bind, bind, get.
    destruct (pc_owner <$> pcs w !! pc) as [[ws|id ws]|].
    + unfold ontrack, mbind, M_bind, bind, log, modify.
      destruct (String.eqb_spec (kind track) "video") as [?|_]; [done|].
      simpl. eauto.
    + exists []. simpl. by rewrite app_nil_r, set_console_same.
    + exists []. simpl. by rewrite app_nil_r, set_console_same.
Qed.

Lemma C10_witness :
  reachable (run streaming_trace init) ∧
  broadcasterPeer (run streaming_trace init) = Some (mkBroadcaster 0 0 (Some camera)) ∧
  kind camera = "video" ∧
  ∃ lines,
    step (run streaming_trace init) (EvTrack 0 microphone, all_ok)
    = set_console (console (run streaming_trace init) ++ lines) (run streaming_trace init).
Proof.
  pose proof (reachable_run streaming_trace init reachable_init) as Hr.
  destruct (C10_non_video_track_ignored _ Hr) as (Hv & _ & Hs).
  split; [exact Hr|]. split; [reflexivity|]. split; [reflexivity|].
  apply Hs. vm_compute. discriminate.
Defined.

(** ** C9: messages before registration *)

(** C9. An offer, an answer or a candidate arriving on a connection whose
    [role] is still [null] leaves the whole state as it was. *)
Theorem C9_unregistered_message_no_effect w ws s msg uuid env :
  sockets w !! ws = Some s → role s = None →
  m_type msg = "offer" ∨ m_type msg = "answer" ∨ m_type msg = "candidate" →
  step w (EvMessage ws (JObj msg) uuid, env) = w.
Proof.
  intros Hs Hr Ht. unfold step, dispatch. simpl.
  rewrite eval_get_bind, Hs.
  destruct (bool_decide (readyState s = 3) || negb (truthy uuid)); [done|].
  unfold on_message.
  destruct Ht as [Ht|[Ht|Ht]]; rewrite Ht; simpl;
    rewrite eval_get_bind, Hs; simpl; rewrite Hr; simpl; done.
Qed.

Lemma C9_witness :
  let w := run [(EvConnection "10.0.0.9", all_ok)] (run streaming_trace init) in
  sockets w !! 2 = Some (mkSocket None None 1 []) ∧
  step w (EvMessage 2 (candidate_msg "early") "u2", all_ok) = w.
Proof.
  split; [reflexivity|].
  eapply (C9_unregistered_message_no_effect _ 2 (mkSocket None None 1 [])).
  - reflexivity.
  - reflexivity.
  - right. right. reflexivity.
Defined.

(** ** What registering a viewer does *)

Global Instance slot_kept_refl : Reflexive slot_kept.
Proof. intros pc. unfold slot_kept. auto. Qed.

Global Instance slot_kept_trans : Transitive slot_kept.
Proof. intros a b c (? & ? & ?) (? & ? & ?). repeat split; try congruence. auto. Qed.

Global Instance pending_stays_empty_refl id : Reflexive (pending_stays_empty id).
Proof. intros w. unfold pending_stays_empty. auto. Qed.

Global Instance pending_stays_empty_trans id : Transitive (pending_stays_empty id).
Proof. unfold pending_stays_empty. intros a b c ? ?. auto. Qed.

Global Instance entry_shrinks_refl id : Reflexive (entry_shrinks id).
Proof. intros w. unfold entry_shrinks. auto. Qed.

Global Instance entry_shrinks_trans id : Transitive (entry_shrinks id).
Proof. unfold entry_shrinks. intros a b c ? ?. auto. Qed.

Ltac pending_leaf :=
  unfold pending_stays_empty; simpl;
  first [ done
        | intros ?; apply lookup_delete_None; by right
        | match goal with |- context [match ?x with _ => _ end] => by destruct x end ].

Ltac entry_leaf :=
  unfold entry_shrinks; simpl;
  first [ done
        | match goal with
          | |- ∀ v, JsMap.get ?id (JsMap.delete ?id' ?m) = Some v → _ =>
              let v := fresh in let H := fresh in
              intros v H; destruct (decide (id' = id)) as [->|];
              [by rewrite get_delete_eq in H|by rewrite get_delete_ne in H]
          end
        | match goal with |- context [match ?x with _ => _ end] => by destruct x end ].

Lemma sendOfferToViewer_slots id :
  respects (pcs_rel slot_kept) (sendOfferToViewer id).
Proof. respects_go pcs_leaf. Qed.

Lemma sendOfferToViewer_pending id id' :
  respects (pending_stays_empty id) (sendOfferToViewer id').
Proof. respects_go pending_leaf. Qed.

Lemma sendOfferToViewer_entry id id' :
  respects (entry_shrinks id) (sendOfferToViewer id').
Proof. respects_go entry_leaf. Qed.

Lemma hoare_respects {A} (R : World → World → Prop) (P : World → Prop) (m : M A) :
  respects R m → hoare P m (λ _ w', ∃ w, P w ∧ R w w').
Proof. intros H env n w Hw r n' w' E. exists w. split; [done|]. eapply H, E. Qed.

Lemma cleanupViewer_spec id w0 :
  hoare (eq w0) (cleanupViewer id) (λ r w1, r = Done tt ∧ frame (cleaned id w0) w1).
Proof.
  apply hoare_get_bind. intros ? <-. unfold cleaned.
  destruct (JsMap.get id (viewerPeers w0)) as [peer|] eqn:E.
  - unfold pc_close, update_pc. do 3 apply hoare_modify_pinned.
    match goal with
    | |- hoare (eq ?x) _ _ =>
        eapply hoare_conseq; [apply (hoare_talks (frame x))| |]
    end.
    + talk_auto.
    + intros w w' F1 F2. by eapply frame_trans.
    + intros w <-. apply frame_refl.
    + intros r w [[[] ->] F]. done.
  - apply hoare_ret. intros w <-. split; [done|apply frame_refl].
Qed.

Lemma cleaned_broadcasterPeer id w : broadcasterPeer (cleaned id w) = broadcasterPeer w.
Proof. unfold cleaned. by destruct (JsMap.get id (viewerPeers w)). Qed.

Lemma cleaned_length id w : length (pcs (cleaned id w)) = length (pcs w).
Proof.
  unfold cleaned. destruct (JsMap.get id (viewerPeers w)); [|done].
  simpl. apply length_alter.
Qed.

Lemma cleaned_get id w : JsMap.get id (viewerPeers (cleaned id w)) = None.
Proof.
  unfold cleaned. destruct (JsMap.get id (viewerPeers w)) eqn:E; [|done].
  simpl. apply get_delete_eq.
Qed.

Lemma cleaned_old id w old :
  Inv w → JsMap.get id (viewerPeers w) = Some old →
  (∃ pc, pcs (cleaned id w) !! v_pc old = Some pc ∧ pc_closed pc = true) ∧
  pendingCandidates (cleaned id w) !! id = None.
Proof.
  intros HI E. unfold cleaned. rewrite E. simpl. split.
  - destruct (inv_viewer _ HI _ _ (get_Some_elem _ _ _ E)) as (pc & Hpc & _).
    exists (set_closed true pc). by rewrite list_lookup_alter_eq, Hpc.
  - apply lookup_delete_eq.
Qed.

Lemma viewer_created_frame id ws w0 w w' :
  frame w w' → viewer_created id ws w0 w → viewer_created id ws w0 w'.
Proof.
  intros F [H1 H2 H3].
  split; rewrite ?(fr_pcs _ _ F), ?(fr_viewerPeers _ _ F); [done| |done].
  intros old Ho. rewrite (fr_pendingCandidates _ _ F). auto.
Qed.

Lemma viewer_created_pre id ws w0 w1 w' :
  pcs w1 = pcs w0 → broadcasterPeer w1 = broadcasterPeer w0 →
  viewerPeers w1 = viewerPeers w0 →
  viewer_created id ws w1 w' → viewer_created id ws w0 w'.
Proof. intros Hp Hb Hv [H1 H2 H3]. split; rewrite <- ?Hp, <- ?Hb, <- ?Hv; done. Qed.

Lemma createViewerPeer_spec id ws w0 :
  Inv w0 →
  hoare (eq w0) (createViewerPeer id ws) (λ _ w', viewer_created id ws w0 w').
Proof.
  intros HI. unfold createViewerPeer.
  eapply hoare_bind; [apply cleanupViewer_spec| |by intros e w [? _]].
  intros []. eapply hoare_bind.
  { eapply hoare_conseq;
      [apply (hoare_talks (frame (cleaned id w0))); [apply talks_log|]| |].
    - intros w w' F1 F2. by eapply frame_trans.
    - by intros w [_ ?].
    - intros r w H. exact H. }
  2: by intros e w [[a [=]] _].
  intros []. apply hoare_new_pc_bind. intros w1 [_ F].
  apply hoare_modify_pinned. apply hoare_get_bind. intros ? <-.
  remember (bp ← broadcasterPeer w0; videoTrack bp) as tr eqn:Etr.
  assert (Hfinal : ∀ w w',
    pcs w !! length (pcs w0)
      = Some (mkPc (OwnViewer id ws) false None None
                [mkTransceiver "video" "sendonly" tr] []) ∧
    (∀ old, JsMap.get id (viewerPeers w0) = Some old →
       (∃ pc, pcs w !! v_pc old = Some pc ∧ pc_closed pc = true) ∧
       pendingCandidates w !! id = None) ∧
    JsMap.get id (viewerPeers w) = Some (mkViewer ws (length (pcs w0))) →
    pcs_rel slot_kept w w' → pending_stays_empty id w w' → entry_shrinks id w w' →
    viewer_created id ws w0 w').
  { intros w w' (Hpc & Hold & Hget) Rp Rpe Re. split.
    - destruct (Rp _ _ Hpc) as (pc' & Hpc' & Ho & Ht & _).
      exists pc'. rewrite Ho, Ht, Etr. done.
    - intros old Ho. destruct (Hold _ Ho) as [(pc & Hpc1 & Hc) Hpe].
      split; [|by apply Rpe].
      destruct (Rp _ _ Hpc1) as (pc' & Hpc' & _ & _ & Hcl). eauto.
    - intros peer Hp. apply Re in Hp. congruence. }
  eapply hoare_bind with (Q' := λ _ w,
    pcs w !! length (pcs w0)
      = Some (mkPc (OwnViewer id ws) false None None
                [mkTransceiver "video" "sendonly" tr] []) ∧
    (∀ old, JsMap.get id (viewerPeers w0) = Some old →
       (∃ pc, pcs w !! v_pc old = Some pc ∧ pc_closed pc = true) ∧
       pendingCandidates w !! id = None) ∧
    JsMap.get id (viewerPeers w) = Some (mkViewer ws (length (pcs w0)))).
  - assert (Hlen : length (pcs w1) = length (pcs w0)).
    { by rewrite (fr_pcs _ _ F), cleaned_length. }
    assert (Hpost : ∀ t w, t = tr →
      broadcasterPeer w = broadcasterPeer w1 →
      viewerPeers w = JsMap.set id (mkViewer ws (length (pcs w1))) (viewerPeers w1) →
      pendingCandidates w = pendingCandidates w1 →
      pcs w = pcs w1 ++ [mkPc (OwnViewer id ws) false None None
                           [mkTransceiver "video" "sendonly" t] []] →
      pcs w !! length (pcs w0)
        = Some (mkPc (OwnViewer id ws) false None None
                  [mkTransceiver "video" "sendonly" tr] []) ∧
      (∀ old, JsMap.get id (viewerPeers w0) = Some old →
         (∃ pc, pcs w !! v_pc old = Some pc ∧ pc_closed pc = true) ∧
         pendingCandidates w !! id = None) ∧
      JsMap.get id (viewerPeers w) = Some (mkViewer ws (length (pcs w0)))).
    { intros t w -> Hb Hv Hpd Hp. rewrite Hv, Hp, Hpd, Hlen. split; [|split].
      - by rewrite <- Hlen, lookup_app_r, Nat.sub_diag.
      - intros old Ho. destruct (cleaned_old _ _ _ HI Ho) as [(pc & Hpc & Hc) Hpe].
        rewrite (fr_pcs _ _ F), (fr_pendingCandidates _ _ F). split; [|done].
        exists pc. split; [|done]. by apply lookup_app_l_Some.
      - apply get_set_eq. }
    simpl. rewrite (fr_broadcasterPeer _ _ F), cleaned_broadcasterPeer, <- Etr.
    destruct tr as [t|].
    + unfold addTransceiver, update_pc. apply hoare_modify_pinned.
      apply hoare_modify. intros w <-. apply (Hpost (Some t)); try done.
      simpl. rewrite alter_snoc. simpl. do 4 f_equal.
      destruct (broadcasterPeer w0) as [bp|] eqn:Ebp; [|done].
      by rewrite (inv_videoTrack _ HI _ _ Ebp (eq_sym Etr)).
    + unfold addTransceiver, update_pc.
      apply hoare_modify. intros w <-. apply (Hpost None); try done.
      simpl. by rewrite alter_snoc.
  - intros []. eapply hoare_conseq.
    + apply (hoare_respects
               (λ w w', pcs_rel slot_kept w w' ∧ pending_stays_empty id w w' ∧
                        entry_shrinks id w w')).
      apply respects_and; [apply sendOfferToViewer_slots|].
      apply respects_and;
        [apply sendOfferToViewer_pending|apply sendOfferToViewer_entry].
    + intros w H. exact H.
    + intros r w' (w & Hw & Rp & Rpe & Re). subst tr. by eapply Hfinal.
  - intros e w Hw. subst tr. eapply Hfinal; [exact Hw|reflexivity..].
Qed.

Lemma truthy_ne s : s ≠ "" → truthy s = true.
Proof. unfold truthy. by destruct (String.eqb_spec s ""). Qed.

Lemma register_viewer_step w ws s msg uuid env :
  Inv w → sockets w !! ws = Some s → readyState s ≠ 3 → uuid ≠ "" →
  m_type msg = "register" → m_role msg = "viewer" →
  viewer_created (registered_id msg uuid) ws w
    (step w (EvMessage ws (JObj msg) uuid, env)).
Proof.
  intros HI Hs Hrs Hu Ht Hr. apply step_post.
  { intros l w' [H1 H2 H3]. by split. }
  simpl. apply hoare_get_bind. intros ? <-. rewrite Hs.
  rewrite bool_decide_eq_false_2, truthy_ne by done. simpl.
  rewrite Ht, Hr. simpl. fold (registered_id msg uuid).
  unfold update_socket, log. do 3 apply hoare_modify_pinned.
  match goal with |- hoare (eq ?x) _ _ => set (w1 := x) end.
  assert (HI1 : Inv w1) by (by eapply Inv_core; [..|exact HI]).
  assert (Hpre : ∀ w', viewer_created (registered_id msg uuid) ws w1 w' →
                       viewer_created (registered_id msg uuid) ws w w').
  { intros w'. by apply viewer_created_pre. }
  eapply hoare_bind; [by apply createViewerPeer_spec| |by intros e w'; apply Hpre].
  intros []. apply hoare_talks_post.
  - talk_auto. destruct (broadcasterPeer _); talk_auto.
  - intros w2 w3 F. apply viewer_created_frame, F.
  - apply Hpre.
Qed.

(** ** C4: the viewer's sending slot *)

(** C4. When a viewer registers, the peer connection made for it (the next
    one created) has exactly one transceiver, a send-only video one, whatever
    the calls that follow do; its sender holds the broadcaster's video track
    if there is one at that time and is empty otherwise.  The session filed
    under the viewer's id, if registration got that far, is on this
    connection. *)
Theorem C4_viewer_slot_reserved w ws s msg uuid env :
  reachable w → sockets w !! ws = Some s → readyState s ≠ 3 → uuid ≠ "" →
  m_type msg = "register" → m_role msg = "viewer" →
  let w' := step w (EvMessage ws (JObj msg) uuid, env) in
  (∃ pc, pcs w' !! length (pcs w) = Some pc ∧
         pc_owner pc = OwnViewer (registered_id msg uuid) ws ∧
         transceivers pc =
           [mkTransceiver "video" "sendonly" (bp ← broadcasterPeer w; videoTrack bp)]) ∧
  (∀ peer, JsMap.get (registered_id msg uuid) (viewerPeers w') = Some peer →
           peer = mkViewer ws (length (pcs w))).
Proof.
  intros Hw Hs Hrs Hu Ht Hr.
  destruct (register_viewer_step w ws s msg uuid env) as [H1 _ H3];
    auto using reachable_Inv.
Qed.

(** A second viewer joins the running stream, and a viewer joins when no
    track has arrived yet. *)
Lemma C4_witness :
  let w := run [(EvConnection "10.0.0.3", all_ok)] (run streaming_trace init) in
  let w' := step w (EvMessage 2 (register "viewer" "y") "u2", all_ok) in
  (broadcasterPeer w ≫= videoTrack) = Some camera ∧
  (∃ pc, pcs w' !! 2 = Some pc ∧ pc_owner pc = OwnViewer "y" 2 ∧
         transceivers pc = [mkTransceiver "video" "sendonly" (Some camera)]) ∧
  JsMap.get "y" (viewerPeers w') = Some (mkViewer 2 2).
Proof.
  intros w w'. split; [reflexivity|].
  destruct (C4_viewer_slot_reserved w 2 (mkSocket None None 1 [])
              (mkInMsg "register" "viewer" "y" "" "" "") "u2" all_ok)
    as [H1 H2]; [apply reachable_run, reachable_run, reachable_init|done..|].
  split; [exact H1|reflexivity].
Defined.

(** ** C3: one session per viewer id *)

(** C3. In every reachable state the keys of [viewerPeers] are distinct and
    two open viewer connections made for the same id are the same connection.
    Registering a viewer under an id that has a session closes that session's
    connection and drops the candidates buffered for the id; the session
    under the id afterwards, if any, is the new one on a new connection. *)
Theorem C3_one_session_per_viewer_id w :
  reachable w →
  NoDup (viewerPeers w).*1 ∧
  (∀ i j pi pj id wi wj,
     pcs w !! i = Some pi → pcs w !! j = Some pj →
     pc_owner pi = OwnViewer id wi → pc_owner pj = OwnViewer id wj →
     pc_closed pi = false → pc_closed pj = false → i = j) ∧
  (∀ ws s msg uuid env old,
     sockets w !! ws = Some s → readyState s ≠ 3 → uuid ≠ "" →
     m_type msg = "register" → m_role msg = "viewer" →
     JsMap.get (registered_id msg uuid) (viewerPeers w) = Some old →
     let w' := step w (EvMessage ws (JObj msg) uuid, env) in
     (∃ pc, pcs w' !! v_pc old = Some pc ∧ pc_closed pc = true) ∧
     pendingCandidates w' !! registered_id msg uuid = None ∧
     (∀ peer, JsMap.get (registered_id msg uuid) (viewerPeers w') = Some peer →
              peer = mkViewer ws (length (pcs w)) ∧ v_pc peer ≠ v_pc old) ∧
     NoDup (viewerPeers w').*1).
Proof.
  intros Hw. pose proof (reachable_Inv _ Hw) as HI. split; [|split].
  - apply (inv_keys _ HI).
  - intros i j pi pj id wi wj Hi Hj Hoi Hoj Hci Hcj.
    pose proof (inv_open_viewer _ HI _ _ _ _ Hi Hoi Hci) as E1.
    pose proof (inv_open_viewer _ HI _ _ _ _ Hj Hoj Hcj) as E2.
    congruence.
  - intros ws s msg uuid env old Hs Hrs Hu Ht Hr Hold w'.
    destruct (register_viewer_step w ws s msg uuid env) as [_ H2 H3]; auto.
    destruct (H2 _ Hold) as [Hc Hp].
    split; [exact Hc|]. split; [exact Hp|]. split.
    + intros peer Hpeer. apply H3 in Hpeer. subst peer. split; [done|]. simpl.
      destruct (inv_viewer _ HI _ _ (get_Some_elem _ _ _ Hold)) as (pc & Hpc & _).
      apply lookup_lt_Some in Hpc. lia.
    + apply inv_keys, reachable_Inv. by constructor.
Qed.

Lemma C3_witness :
  let w := reregister_start in
  let w' := step w (EvMessage 1 (register "viewer" "x") "u1", all_ok) in
  JsMap.get "x" (viewerPeers w) = Some (mkViewer 0 0) ∧
  pendingCandidates w !! "x" = Some ["c1"] ∧
  (pc_closed <$> pcs w' !! 0) = Some true ∧
  pendingCandidates w' !! "x" = None ∧
  viewerPeers w' = [("x", mkViewer 1 1)].
Proof.
  intros w w'. split; [reflexivity|]. split; [reflexivity|].
  assert (Hr : reachable w) by apply reachable_run, reachable_init.
  destruct (C3_one_session_per_viewer_id w Hr) as (_ & _ & H).
  destruct (H 1 (mkSocket None None 1 [])
              (mkInMsg "register" "viewer" "x" "" "" "") "u1" all_ok
              (mkViewer 0 0))
    as ((pc & Hpc & Hc) & Hp & _ & _); [done..|].
  change (pcs w' !! 0 = Some pc) in Hpc.
  split; [by rewrite Hpc; simpl; rewrite Hc|].
  split; [exact Hp|reflexivity].
Defined.

(** ** What registering a broadcaster does *)

Lemma createBroadcasterPeer_spec ws w0 :
  hoare (eq w0) (createBroadcasterPeer ws)
    (λ r w', r = Done tt ∧ broadcaster_created ws w0 w' ∧
             broadcasterTimeoutTimer w' = broadcasterTimeoutTimer w0 ∧
             timers w' = timers w0).
Proof.
  unfold createBroadcasterPeer.
  eapply hoare_bind with (Q' := λ r w1,
    r = Done tt ∧ broadcasterPeer w1 = None ∧
    viewerPeers w1 = viewerPeers w0 ∧ pendingCandidates w1 = pendingCandidates w0 ∧
    broadcasterTimeoutTimer w1 = broadcasterTimeoutTimer w0 ∧
    timers w1 = timers w0 ∧
    pcs w1 = match broadcasterPeer w0 with
             | Some b1 => alter (set_closed true) (b_pc b1) (pcs w0)
             | None => pcs w0
             end).
  - apply hoare_get_bind. intros ? <-.
    destruct (broadcasterPeer w0) as [b1|] eqn:Eb.
    + unfold pc_close, update_pc, log. do 3 apply hoare_modify_pinned.
      apply hoare_modify. by intros w <-.
    + apply hoare_ret. by intros w <-.
  - intros []. unfold log. apply hoare_modify_bind. apply hoare_new_pc_bind.
    intros ? (w1 & (_ & Hb & Hv & Hpd & Ht & Htm & Hp) & ->).
    do 2 apply hoare_modify_pinned. unfold addTransceiver, update_pc.
    apply hoare_modify. intros w <-. split; [done|]. split; [|done].
    split; simpl; try done.
    + rewrite Hp. by destruct (broadcasterPeer w0); rewrite ?length_alter.
    + rewrite alter_snoc. unfold pcs_after_broadcaster. by rewrite Hp.
  - by intros e w [[=] _].
Qed.

Lemma register_broadcaster_step w ws s msg uuid env :
  sockets w !! ws = Some s → readyState s ≠ 3 → uuid ≠ "" →
  m_type msg = "register" → m_role msg = "broadcaster" →
  let w' := step w (EvMessage ws (JObj msg) uuid, env) in
  broadcaster_created ws w w' ∧ broadcasterTimeoutTimer w' = None ∧
  timers w' = timers_after_register w.
Proof.
  intros Hs Hrs Hu Ht Hr.
  apply (step_post w _ (λ w', broadcaster_created ws w w' ∧
                              broadcasterTimeoutTimer w' = None ∧
                              timers w' = timers_after_register w)).
  { intros l w' [[] ?]. by split. }
  simpl. apply hoare_get_bind. intros ? <-. rewrite Hs.
  rewrite bool_decide_eq_false_2, truthy_ne by done. simpl.
  rewrite Ht, Hr. simpl.
  unfold update_socket. apply hoare_modify_pinned. apply hoare_get_bind.
  intros ? <-. simpl.
  eapply hoare_bind with (Q' := λ r w1,
    r = Done tt ∧ broadcasterPeer w1 = broadcasterPeer w ∧
    viewerPeers w1 = viewerPeers w ∧ pendingCandidates w1 = pendingCandidates w ∧
    pcs w1 = pcs w ∧ broadcasterTimeoutTimer w1 = None ∧
    timers w1 = timers_after_register w).
  - unfold timers_after_register.
    destruct (broadcasterTimeoutTimer w) as [t|] eqn:Et.
    + unfold clearTimeout. apply hoare_modify_pinned. apply hoare_modify.
      by intros w1 <-.
    + apply hoare_ret. by intros w1 <-.
  - intros []. unfold log. apply hoare_modify_bind.
    apply (hoare_conseq _ (λ w2, broadcasterPeer w2 = broadcasterPeer w ∧
      viewerPeers w2 = viewerPeers w ∧ pendingCandidates w2 = pendingCandidates w ∧
      pcs w2 = pcs w ∧ broadcasterTimeoutTimer w2 = None ∧
      timers w2 = timers_after_register w) _
      (λ _ w', broadcaster_created ws w w' ∧ broadcasterTimeoutTimer w' = None ∧
               timers w' = timers_after_register w));
      [|by intros w2 (w1 & (_ & ? & ? & ? & ? & ? & ?) & ->)|done].
    eapply hoare_bind with (Q' := λ r w',
      r = Done tt ∧ broadcaster_created ws w w' ∧ broadcasterTimeoutTimer w' = None ∧
      timers w' = timers_after_register w).
    + intros env' n' w2 (Hb & Hv & Hpd & Hp & Htm & Hts) r n'' w' E.
      destruct (createBroadcasterPeer_spec ws w2 env' n' w2 eq_refl _ _ _ E)
        as (-> & [B1 B2 B3 B4 B5] & B6 & B7).
      split; [done|]. split; [|split; congruence].
      split; try congruence. rewrite B5. unfold pcs_after_broadcaster.
      by rewrite Hb, Hp.
    + intros []. apply hoare_talks_post; [talk_auto| |by intros w' (_ & ? & ?)].
      intros w1 w2 F ([B1 B2 B3 B4 B5] & B6 & B7).
      split; [split|]; rewrite ?(fr_broadcasterPeer _ _ F), ?(fr_broadcasterWs _ _ F),
        ?(fr_viewerPeers _ _ F), ?(fr_pendingCandidates _ _ F), ?(fr_pcs _ _ F),
        ?(fr_timer _ _ F), ?(fr_timers _ _ F); done.
    + by intros e w' [[=] _].
  - by intros e w' [[=] _].
Qed.

(** ** C1: the single broadcaster *)

(** C1 (counterexample). A broadcaster streams [camera] to viewer "x"; a
    second broadcaster registers on a new connection.  The first
    broadcaster's connection is closed and [videoTrack] starts empty, but the
    sending slot of "x" still holds [camera]. *)
Lemma C1_counterexample :
  let w := run [(EvConnection "10.0.0.3", all_ok)] (run streaming_trace init) in
  let w' := step w (EvMessage 2 (register "broadcaster" "") "u2", all_ok) in
  broadcasterPeer w = Some (mkBroadcaster 0 0 (Some camera)) ∧
  broadcasterPeer w' = Some (mkBroadcaster 2 2 None) ∧
  (transceivers <$> pcs w' !! 1) = Some [mkTransceiver "video" "sendonly" (Some camera)] ∧
  ¬ prior_track_cleared w w'.
Proof.
  intros w w'. split; [reflexivity|]. split; [reflexivity|]. split; [reflexivity|].
  intros H.
  apply (H (mkBroadcaster 0 0 (Some camera)) camera eq_refl eq_refl
           "x" (mkViewer 1 1)
           (mkPc (OwnViewer "x" 1) false (Some "viewer-answer") (Some "sdp")
              [mkTransceiver "video" "sendonly" (Some camera)] [])
           (mkTransceiver "video" "sendonly" (Some camera))).
  - vm_compute. left.
  - reflexivity.
  - left.
  - reflexivity.
Qed.

(** C1 (amended). In every reachable state all open broadcaster
    connections are the one of [broadcasterPeer].  When a broadcaster registers
    while another is registered, the other's connection is closed,
    [broadcasterPeer] becomes a new session on a new connection with a
    receive-only video transceiver and no track, the pending disconnect
    timer is forgotten, and the viewers' sessions and connections are left
    exactly as they were, with whatever track their slots held. *)
Theorem C1_single_broadcaster w :
  reachable w →
  (∀ i pi wi, pcs w !! i = Some pi → pc_owner pi = OwnBroadcaster wi →
              pc_closed pi = false →
              ∃ bp, broadcasterPeer w = Some bp ∧ b_pc bp = i) ∧
  (∀ ws s msg uuid env b1,
     sockets w !! ws = Some s → readyState s ≠ 3 → uuid ≠ "" →
     m_type msg = "register" → m_role msg = "broadcaster" →
     broadcasterPeer w = Some b1 →
     let w' := step w (EvMessage ws (JObj msg) uuid, env) in
     (∃ pc, pcs w' !! b_pc b1 = Some pc ∧ pc_closed pc = true) ∧
     broadcasterPeer w' = Some (mkBroadcaster ws (length (pcs w)) None) ∧
     b_pc b1 ≠ length (pcs w) ∧
     broadcasterWs w' = Some ws ∧
     broadcasterTimeoutTimer w' = None ∧
     pcs w' !! length (pcs w)
       = Some (mkPc (OwnBroadcaster ws) false None None
                 [mkTransceiver "video" "recvonly" None] []) ∧
     viewerPeers w' = viewerPeers w ∧
     (∀ id peer, (id, peer) ∈ viewerPeers w → pcs w' !! v_pc peer = pcs w !! v_pc peer)).
Proof.
  intros Hw. pose proof (reachable_Inv _ Hw) as HI. split.
  - apply (inv_open_broadcaster _ HI).
  - intros ws s msg uuid env b1 Hs Hrs Hu Ht Hr Hb1 w'.
    destruct (register_broadcaster_step w ws s msg uuid env)
      as ([B1 B2 B3 B4 B5] & B6 & _); auto.
    fold w' in B1, B2, B3, B4, B5, B6.
    unfold pcs_after_broadcaster in B5. rewrite Hb1 in B5.
    destruct (inv_broadcaster _ HI _ Hb1) as (p1 & Hp1 & Ho1 & Hc1).
    pose proof (lookup_lt_Some _ _ _ Hp1) as Hlt.
    split; [|split; [done|split; [lia|split; [done|split; [done|split; [|split; [done|]]]]]]].
    + exists (set_closed true p1). split; [|done]. rewrite B5.
      rewrite lookup_app_l by (by rewrite length_alter).
      by rewrite list_lookup_alter_eq, Hp1.
    + rewrite B5. rewrite lookup_app_r by (by rewrite length_alter).
      by rewrite length_alter, Nat.sub_diag.
    + intros id peer Hin.
      destruct (inv_viewer _ HI _ _ Hin) as (q & Hq & Hoq & _).
      rewrite B5, lookup_app_l
        by (rewrite length_alter; by eapply lookup_lt_Some).
      apply list_lookup_alter_ne. intros E. rewrite E in Hp1. congruence.
Qed.

Lemma C1_witness :
  let w := run [(EvConnection "10.0.0.3", all_ok)] (run streaming_trace init) in
  let w' := step w (EvMessage 2 (register "broadcaster" "") "u2", all_ok) in
  broadcasterPeer w = Some (mkBroadcaster 0 0 (Some camera)) ∧
  (∃ pc, pcs w' !! 0 = Some pc ∧ pc_closed pc = true) ∧
  broadcasterPeer w' = Some (mkBroadcaster 2 2 None) ∧
  viewerPeers w' = viewerPeers w.
Proof.
  intros w w'. split; [reflexivity|].
  assert (Hr : reachable w) by apply reachable_run, reachable_run, reachable_init.
  destruct (C1_single_broadcaster w Hr) as [_ H].
  destruct (H 2 (mkSocket None None 1 [])
              (mkInMsg "register" "broadcaster" "" "" "" "") "u2" all_ok
              (mkBroadcaster 0 0 (Some camera)))
    as (Hc & Hb & _ & _ & _ & _ & Hv & _); [done..|].
  split; [exact Hc|]. split; [exact Hb|exact Hv].
Defined.

(** ** C5: a track arriving after negotiation *)

Global Instance substituted_refl track : Reflexive (substituted track).
Proof. intros q. unfold substituted. eauto 6. Qed.

Global Instance substituted_trans track : Transitive (substituted track).
Proof.
  intros a b c (R1 & L1 & T1) (R2 & L2 & T2). split; [congruence|].
  split; [congruence|]. intros t Ht. destruct (T1 t Ht) as (t1 & Ht1 & H1).
  destruct (T2 t1 Ht1) as (t2 & Ht2 & H2). exists t2. split; [done|].
  destruct H1, H2; subst; auto.
Qed.

Lemma substituted_replaceTrack track idx q :
  substituted track q
    (set_transceivers (alter (set_track (Some track)) idx (transceivers q)) q).
Proof.
  split; [done|]. split; [done|]. intros t Ht. simpl. rewrite Ht.
  destruct idx as [|idx]; simpl; eauto.
Qed.

Ltac substituted_leaf :=
  first
    [ apply pcs_rel_same; [tc_solve|done]
    | eapply pcs_rel_alter;
        [tc_solve|simpl; reflexivity|intros ?; apply substituted_replaceTrack] ].

Lemma ontrack_substitutes track :
  respects (pcs_rel (substituted track)) (ontrack track).
Proof. respects_go substituted_leaf. Qed.

Lemma ontrack_sockets track : respects (kept sockets) (ontrack track).
Proof. respects_go kept_leaf. Qed.

Lemma ontrack_viewerPeers track : respects (kept viewerPeers) (ontrack track).
Proof. respects_go kept_leaf. Qed.

(** The slot of a registered viewer is found by [find_sender]. *)
Lemma find_sender_viewer w id peer :
  Inv w → (id, peer) ∈ viewerPeers w → find_sender (v_pc peer) w = Some 0.
Proof.
  intros HI Hin. destruct (inv_viewer _ HI _ _ Hin) as (q & Hq & _ & _ & t & Ht).
  unfold find_sender. rewrite Hq. simpl. rewrite Ht. simpl.
  assert (Hev : empty_or_video (mkTransceiver "video" "sendonly" t) = true).
  { unfold empty_or_video. simpl. destruct t as [t0|] eqn:Et; [|done].
    apply String.eqb_eq.
    apply (inv_slots _ HI _ _ Hq (mkTransceiver "video" "sendonly" (Some t0)));
      [rewrite Ht; left|done]. }
  rewrite decide_True; [done|]. by rewrite Hev.
Qed.

Lemma forward_loop track env l :
  kind track = "video" → (∀ k, ∃ v, oracle env k = Ok v) →
  ∀ n w r n' w',
    Inv w → (∀ x, x ∈ l → x ∈ viewerPeers w) →
    for_each l (forward track) env n w = (r, n', w') →
    Inv w' ∧ viewerPeers w' = viewerPeers w ∧
    (∀ peer, holds_track track peer w → holds_track track peer w') ∧
    (∀ id peer, (id, peer) ∈ l → holds_track track peer w').
Proof.
  intros Hk Hok. induction l as [|[id peer] l IH]; intros n w r n' w' HI Hl.
  - intros [= <- <- <-]. split; [done|]. split; [done|]. split; [auto|].
    by intros ?? H%elem_of_nil.
  - simpl. assert (Hin : (id, peer) ∈ viewerPeers w) by (apply Hl; left).
    destruct (Hok n) as [v Hv].
    destruct (inv_viewer _ HI _ _ Hin) as (q & Hq & Hoq & Hcq & t & Ht).
    set (w1 := set_console
                 (console w ++ [mkLog ("Track forwarded to viewer " +:+ id) "success"])
                 (set_pcs (alter (λ pc, set_transceivers
                             (alter (set_track (Some track)) 0 (transceivers pc)) pc)
                           (v_pc peer) (pcs w)) w)).
    assert (E1 : forward track (id, peer) env n w = (Done tt, S n, w1)).
    { unfold forward. rewrite eval_get_bind, (find_sender_viewer _ _ _ HI Hin).
      unfold try_catch, replaceTrack, mbind, M_bind, bind, external.
      by rewrite Hv. }
    erewrite eval_bind by exact E1. intros E.
    assert (HI1 : Inv w1).
    { eapply Inv_core; [..|apply (Inv_alter_pc w (v_pc peer)
                                    (λ pc, set_transceivers
                                       (alter (set_track (Some track)) 0
                                          (transceivers pc)) pc));
                           [by apply benign_replaceTrack|exact HI]]; done. }
    assert (Hstep : ∀ p, holds_track track p w → holds_track track p w1).
    { intros p (q0 & Hq0 & Ht0). unfold holds_track. simpl.
      destruct (decide (v_pc peer = v_pc p)) as [Ep|Ep].
      - rewrite <- Ep, list_lookup_alter_eq. rewrite <- Ep in Hq0.
        rewrite Hq0. simpl. eexists. split; [done|]. simpl. by rewrite Ht0.
      - rewrite list_lookup_alter_ne by done. eauto. }
    assert (Hnow : holds_track track peer w1).
    { unfold holds_track. simpl. rewrite list_lookup_alter_eq, Hq. simpl.
      eexists. split; [done|]. simpl. by rewrite Ht. }
    destruct (IH _ _ _ _ _ HI1 (λ x Hx, Hl x (list_elem_of_further _ _ _ Hx)) E)
      as (HI' & Hv' & Hkeep & Hall).
    split; [done|]. split; [done|]. split; [auto|].
    intros id' peer' [[= -> ->]|Hin']%elem_of_cons; eauto.
Qed.

(** C5. When a video track arrives on the open broadcaster connection, no
    message is sent on any socket (so no offer goes to any viewer) and the
    viewer map is unchanged; each viewer's connection keeps its descriptions
    and its single send-only video transceiver, whose sender holds either the
    new track or what it held before; and if the engine accepts every
    [replaceTrack], every viewer's slot holds the new track. *)
Theorem C5_late_track_substituted w pc p ws0 track env :
  reachable w →
  pcs w !! pc = Some p → pc_owner p = OwnBroadcaster ws0 → pc_closed p = false →
  kind track = "video" →
  let w' := step w (EvTrack pc track, env) in
  sockets w' = sockets w ∧ viewerPeers w' = viewerPeers w ∧
  (∀ id peer, (id, peer) ∈ viewerPeers w →
     ∃ q q' t t',
       pcs w !! v_pc peer = Some q ∧ pcs w' !! v_pc peer = Some q' ∧
       remoteDescription q' = remoteDescription q ∧
       localDescription q' = localDescription q ∧
       transceivers q = [mkTransceiver "video" "sendonly" t] ∧
       transceivers q' = [mkTransceiver "video" "sendonly" t'] ∧
       (t' = t ∨ t' = Some track) ∧
       ((∀ k, ∃ v, oracle env k = Ok v) → t' = Some track)).
Proof.
  intros Hw Hp Ho Hc Hk w'. pose proof (reachable_Inv _ Hw) as HI.
  destruct (inv_open_broadcaster _ HI _ _ _ Hp Ho Hc) as (bp & Hbp & _).
  assert (Hstep : ∃ r n1 w1, ontrack track env 0 w = (r, n1, w1) ∧
            sockets w' = sockets w1 ∧ viewerPeers w' = viewerPeers w1 ∧
            pcs w' = pcs w1).
  { destruct (ontrack track env 0 w) as [[r n1] w1] eqn:E.
    exists r, n1, w1. split; [done|].
    subst w'. unfold step, dispatch. simpl. rewrite eval_get_bind, Hp. simpl.
    rewrite Ho, E. by destruct r. }
  destruct Hstep as (r & n1 & w1 & E & -> & -> & Hpcs).
  split; [apply (ontrack_sockets _ _ _ _ _ _ _ E)|].
  split; [apply (ontrack_viewerPeers _ _ _ _ _ _ _ E)|].
  intros id peer Hin.
  destruct (inv_viewer _ HI _ _ Hin) as (q & Hq & _ & _ & t & Ht).
  destruct (ontrack_substitutes _ _ _ _ _ _ _ E _ _ Hq) as (q' & Hq' & HR & HL & HT).
  destruct (HT _ Ht) as (t' & Ht' & Hor).
  exists q, q', t, t'. rewrite Hpcs. repeat split; try done.
  intros Hok. revert E. unfold ontrack, log.
  rewrite eval_modify_bind, Hk. simpl. rewrite eval_get_bind. simpl.
  rewrite Hbp. rewrite eval_modify_bind, eval_get_bind. simpl.
  match goal with
  | |- (for_each _ ?body ≫= _) _ _ ?w2 = _ → _ =>
      destruct (for_each (viewerPeers w) (forward track) env 0 w2)
        as [[r2 n2] w3] eqn:Eloop;
      change body with (forward track)
  end.
  unfold mbind at 1, M_bind, bind. rewrite Eloop.
  apply forward_loop in Eloop as (_ & _ & _ & Hall); try done.
  - destruct (Hall _ _ Hin) as (q3 & Hq3 & Ht3).
    destruct r2; intros [= <- <- <-]; simpl in Hq';
      rewrite Hq' in Hq3; injection Hq3 as <-; congruence.
  - eapply (Inv_set_videoTrack w _ bp (Some track)); try done.
    by intros t0 [= <-].
Qed.

Lemma C5_witness :
  let w := run negotiated_trace init in
  let w' := step w (EvTrack 0 camera, all_ok) in
  (remoteDescription <$> pcs w !! 1) = Some (Some "viewer-answer") ∧
  (transceivers <$> pcs w !! 1) = Some [mkTransceiver "video" "sendonly" None] ∧
  sockets w' = sockets w ∧
  (transceivers <$> pcs w' !! 1) = Some [mkTransceiver "video" "sendonly" (Some camera)].
Proof.
  intros w w'. split; [reflexivity|]. split; [reflexivity|].
  assert (Hr : reachable w) by apply reachable_run, reachable_init.
  destruct (C5_late_track_substituted w 0
              (mkPc (OwnBroadcaster 0) false (Some "broadcaster-offer") (Some "sdp")
                 [mkTransceiver "video" "recvonly" None] [])
              0 camera all_ok Hr)
    as (Hs & _ & Hv); [reflexivity..|].
  split; [exact Hs|].
  destruct (Hv "x" (mkViewer 1 1)) as (q & q' & t & t' & _ & Hq' & _ & _ & _ & Ht' & _ & Hok).
  { vm_compute. left. }
  change (pcs w' !! 1 = Some q') in Hq'.
  rewrite Hq'. 
  cbn [fmap option_fmap option_map].
  rewrite Ht', Hok; [done|].
  intros k. by exists "sdp".
Defined.

(** ** Draining the candidate buffer *)

Lemma ice_outcomes_fst env n l : (ice_outcomes env n l).*1 = l.
Proof. revert n. induction l as [|c l IH]; intros n; simpl; [done|]. by rewrite IH. Qed.

Lemma record_calls_nil pc : record_calls [] pc = pc.
Proof. destruct pc. unfold record_calls, set_iceCalls. simpl. by rewrite app_nil_r. Qed.

Lemma record_calls_app a b pc :
  record_calls b (record_calls a pc) = record_calls (a ++ b) pc.
Proof. unfold record_calls, set_iceCalls. simpl. by rewrite app_assoc. Qed.

Lemma set_pcs_same w : set_pcs (pcs w) w = w.
Proof. by destruct w. Qed.

Lemma addIceCandidate_eval i c env n w :
  try_catch (addIceCandidate i c) (λ _, mret tt) env n w
  = (Done tt, S n,
     set_pcs (alter (record_calls [(c, succeeded (oracle env n))]) i (pcs w)) w).
Proof.
  unfold addIceCandidate, try_catch, mbind, M_bind, bind, external, update_pc,
    modify, throw.
  by destruct (oracle env n).
Qed.

Lemma drain_eval i l env n w :
  drain i l env n w
  = (Done tt, n + length l,
     set_pcs (alter (record_calls (ice_outcomes env n l)) i (pcs w)) w).
Proof.
  revert n w. induction l as [|c l IH]; intros n w.
  - simpl. unfold mret, M_ret, ret. rewrite Nat.add_0_r. do 2 f_equal.
    rewrite list_alter_id by apply record_calls_nil. by rewrite set_pcs_same.
  - unfold drain. simpl. erewrite eval_bind by apply addIceCandidate_eval.
    fold (drain i l). rewrite IH. f_equal; [f_equal; lia|]. simpl.
    unfold set_pcs. simpl. f_equal.
    rewrite list_alter_alter_eq. apply list_alter_ext; [|done].
    intros pc _. simpl. apply (record_calls_app [_]).
Qed.

Lemma ice_outcomes_lookup env n l k c :
  l !! k = Some c → ice_outcomes env n l !! k = Some (c, succeeded (oracle env (n + k))).
Proof.
  revert n k. induction l as [|c0 l IH]; intros n k; [done|].
  destruct k as [|k]; simpl.
  - intros [= ->]. by rewrite Nat.add_0_r.
  - intros H. rewrite (IH (S n) k H). by replace (n + S k) with (S n + k) by lia.
Qed.

(** ** C8: errors during the drain *)

(** C8 (counterexample). The answer of "x" arrives and applying the first
    buffered candidate fails.  Both candidates are applied, the second one
    successfully, but the only line written is the one for the answer: the
    failure leaves no trace in the log. *)
Lemma C8_counterexample :
  let w := two_buffered in
  let w' := step w (EvMessage 0 (answer_msg "viewer-answer") "u0", first_candidate_fails) in
  pendingCandidates w !! "x" = Some ["c1"; "c2"] ∧
  (iceCalls <$> pcs w' !! 0) = Some [("c1", false); ("c2", true)] ∧
  drop (length (console w)) (console w') = [mkLog "Viewer x answer set" "success"] ∧
  ¬ error_logged w w'.
Proof.
  intros w w'. split; [reflexivity|]. split; [reflexivity|].
  assert (Hd : drop (length (console w)) (console w')
               = [mkLog "Viewer x answer set" "success"]) by reflexivity.
  split; [exact Hd|]. intros (line & Hin & Hl). rewrite Hd in Hin.
  apply list_elem_of_singleton in Hin. subst line. discriminate Hl.
Qed.

(** C8 (amended). The drain calls [addIceCandidate] once for every buffered
    candidate, in order, each call failing or succeeding on its own; it
    returns normally and changes nothing else: a failure is swallowed, not
    logged. *)
Theorem C8_drain_best_effort i l env n w :
  ∃ w', drain i l env n w = (Done tt, n + length l, w') ∧
        w' = set_pcs (alter (record_calls (ice_outcomes env n l)) i (pcs w)) w ∧
        console w' = console w ∧
        (ice_outcomes env n l).*1 = l ∧
        (∀ k c, l !! k = Some c →
           ice_outcomes env n l !! k = Some (c, succeeded (oracle env (n + k)))).
Proof.
  eexists. split; [apply drain_eval|]. split; [done|]. split; [done|].
  split; [apply ice_outcomes_fst|apply ice_outcomes_lookup].
Qed.

(** ** C2: candidates that arrive before the answer *)

Lemma buffer_candidate_eval id c env n w :
  buffer_candidate id c env n w
  = (Done tt, n,
     set_pendingCandidates
       (<[id := default [] (pendingCandidates w !! id) ++ [c]]> (pendingCandidates w)) w).
Proof.
  unfold buffer_candidate. rewrite eval_modify_bind. unfold modify.
  f_equal. destruct (pendingCandidates w !! id) as [l|] eqn:E; simpl.
  - f_equal. apply map_eq. intros k. destruct (decide (id = k)) as [<-|Hne].
    + by rewrite lookup_alter_eq, lookup_insert_eq, E.
    + by rewrite lookup_alter_ne, lookup_insert_ne.
  - unfold set_pendingCandidates. simpl. by rewrite alter_insert_eq.
Qed.

Lemma candidate_step w ws s id c uuid env :
  sockets w !! ws = Some s → readyState s ≠ 3 → uuid ≠ "" →
  role s = Some "viewer" → viewerId s = Some id → id ≠ "" →
  has_remoteDescription (JsMap.get id (viewerPeers w)) w = false →
  step w (EvMessage ws (candidate_msg c) uuid, env)
  = set_pendingCandidates
      (<[id := default [] (pendingCandidates w !! id) ++ [c]]> (pendingCandidates w)) w.
Proof.
  intros Hs Hrs Hu Hr Hv Hid Hrd. unfold step, dispatch. simpl.
  rewrite eval_get_bind, Hs.
  rewrite bool_decide_eq_false_2, truthy_ne by done. simpl.
  rewrite eval_get_bind, Hs. simpl. rewrite Hr, Hv. simpl.
  unfold handle_candidate. rewrite eval_get_bind. simpl.
  rewrite truthy_ne by done.
  destruct (JsMap.get id (viewerPeers w)) as [p|] eqn:Ep.
  - rewrite Hrd. by rewrite buffer_candidate_eval.
  - by rewrite buffer_candidate_eval.
Qed.

Global Instance ice_kept_refl : Reflexive ice_kept.
Proof. intros q. by split. Qed.

Global Instance ice_kept_trans : Transitive ice_kept.
Proof. intros a b c [] []. split; congruence. Qed.

Lemma substitute_late_track_ice id peer h :
  respects (pcs_rel ice_kept)
    (try_catch (substitute_late_track id peer) (λ e, log (h e) "error")).
Proof. respects_go pcs_leaf. Qed.

Lemma substitute_late_track_pending id peer h :
  respects (kept pendingCandidates)
    (try_catch (substitute_late_track id peer) (λ e, log (h e) "error")).
Proof. respects_go kept_leaf. Qed.

Lemma substitute_late_track_viewerPeers id peer h :
  respects (kept viewerPeers)
    (try_catch (substitute_late_track id peer) (λ e, log (h e) "error")).
Proof. respects_go kept_leaf. Qed.

Lemma eval_try_bind {A B} (m : M A) (k : A → M B) h env n w a n' w' :
  m env n w = (Done a, n', w') →
  try_catch (m ≫= k) h env n w = try_catch (k a) h env n' w'.
Proof. intros E. unfold try_catch, mbind, M_bind, bind. by rewrite E. Qed.

Lemma eval_try_throw {A} (m : M A) h env n w e n' w' :
  m env n w = (Throw e, n', w') → try_catch m h env n w = h e env n' w'.
Proof. intros E. unfold try_catch. by rewrite E. Qed.

Lemma eval_external_ok {B} (k : string → M B) env n w v :
  oracle env n = Ok v → (external ≫= k) env n w = k v env (S n) w.
Proof. intros E. unfold mbind, M_bind, bind, external. by rewrite E. Qed.

Lemma eval_external_err {B} (k : string → M B) env n w e :
  oracle env n = Err e → (external ≫= k) env n w = (Throw e, S n, w).
Proof. intros E. unfold mbind, M_bind, bind, external. by rewrite E. Qed.

Lemma setRemoteDescription_ok i d env n w v :
  oracle env n = Ok v →
  setRemoteDescription i d env n w
  = (Done tt, S n, set_pcs (alter (set_remoteDescription (Some d)) i (pcs w)) w).
Proof.
  intros E. unfold setRemoteDescription, mbind, M_bind, bind, external.
  by rewrite E.
Qed.

Lemma answer_step w ws s id peer q msg uuid env v :
  sockets w !! ws = Some s → readyState s ≠ 3 → uuid ≠ "" →
  role s = Some "viewer" → viewerId s = Some id →
  JsMap.get id (viewerPeers w) = Some peer → pcs w !! v_pc peer = Some q →
  m_type msg = "answer" → oracle env 0 = Ok v →
  let w' := step w (EvMessage ws (JObj msg) uuid, env) in
  ∃ q', pcs w' !! v_pc peer = Some q' ∧
        remoteDescription q' = Some (m_answer msg) ∧
        iceCalls q'
          = iceCalls q ++ ice_outcomes env 1 (default [] (pendingCandidates w !! id)) ∧
        pendingCandidates w' !! id = None ∧
        viewerPeers w' = viewerPeers w.
Proof.
  intros Hs Hrs Hu Hr Hv Hp Hq Ht Hok w'.
  set (pend := default [] (pendingCandidates w !! id)).
  set (w4 := set_pendingCandidates (delete id (pendingCandidates w))
               (set_pcs (alter (record_calls (ice_outcomes env 1 pend)) (v_pc peer)
                  (alter (set_remoteDescription (Some (m_answer msg))) (v_pc peer)
                     (pcs w)))
                  (set_console
                     (console w ++ [mkLog ("Viewer " +:+ id +:+ " answer set") "success"])
                     w))).
  assert (E : ∃ r n1 w5,
    try_catch (substitute_late_track id peer)
      (λ e, log ("Viewer answer error [" +:+ id +:+ "]: " +:+ e) "error")
      env (1 + length pend) w4 = (r, n1, w5) ∧
    pcs w' = pcs w5 ∧ pendingCandidates w' = pendingCandidates w5 ∧
    viewerPeers w' = viewerPeers w5).
  { destruct (try_catch (substitute_late_track id peer) _ env (1 + length pend) w4)
      as [[r n1] w5] eqn:E5.
    exists r, n1, w5. split; [done|]. subst w'. unfold step, dispatch. simpl.
    rewrite eval_get_bind, Hs.
    rewrite bool_decide_eq_false_2, truthy_ne by done. simpl.
    rewrite Ht. simpl. rewrite eval_get_bind, Hs. simpl. rewrite Hr, Hv. simpl.
    unfold handle_answer. rewrite eval_get_bind. simpl. rewrite Hp. simpl.
    erewrite eval_try_bind by (by eapply setRemoteDescription_ok).
    erewrite eval_try_bind by reflexivity.
    erewrite eval_try_bind by reflexivity.
    erewrite eval_try_bind by apply drain_eval.
    erewrite eval_try_bind by reflexivity.
    match goal with
    | |- context [try_catch _ _ env ?n ?w0] =>
        change w0 with w4; change n with (1 + length pend)
    end.
    rewrite E5. by destruct r. }
  destruct E as (r & n1 & w5 & E & -> & -> & ->).
  pose proof (substitute_late_track_ice _ _ _ _ _ _ _ _ _ E) as Rp.
  pose proof (substitute_late_track_pending _ _ _ _ _ _ _ _ _ E) as Rpe.
  pose proof (substitute_late_track_viewerPeers _ _ _ _ _ _ _ _ _ E) as Rv.
  assert (Hq4 : pcs w4 !! v_pc peer
            = Some (record_calls (ice_outcomes env 1 pend)
                      (set_remoteDescription (Some (m_answer msg)) q))).
  { simpl. by rewrite !list_lookup_alter_eq, Hq. }
  destruct (Rp _ _ Hq4) as (q' & Hq' & HR & HI).
  exists q'. split; [done|]. split; [by rewrite HR|]. split; [by rewrite HI|].
  split; [|by rewrite Rv].
  rewrite Rpe. simpl. apply lookup_delete_eq.
Qed.

Lemma run_arrivals w ws s id peer q cs uuid :
  sockets w !! ws = Some s → readyState s ≠ 3 → uuid ≠ "" →
  role s = Some "viewer" → viewerId s = Some id → id ≠ "" →
  JsMap.get id (viewerPeers w) = Some peer → pcs w !! v_pc peer = Some q →
  remoteDescription q = None →
  let buffered := run (arrivals ws uuid cs) w in
  sockets buffered = sockets w ∧ viewerPeers buffered = viewerPeers w ∧
  pcs buffered = pcs w ∧
  default [] (pendingCandidates buffered !! id)
    = default [] (pendingCandidates w !! id) ++ cs.*1.
Proof.
  intros Hs Hrs Hu Hr Hv Hid. revert w Hs.
  induction cs as [|[c e] cs IH]; intros w Hs Hp Hq Hrd; simpl.
  - by rewrite app_nil_r.
  - erewrite candidate_step; try done.
    2: { rewrite Hp. unfold has_remoteDescription. simpl. rewrite Hq. simpl.
         rewrite Hrd. apply bool_decide_eq_false_2. by intros [? [=]]. }
    match goal with |- context [run _ ?w1] => specialize (IH w1) end.
    simpl in IH. destruct IH as (IH1 & IH2 & IH3 & IH4); try done.
    rewrite IH1, IH2, IH3, IH4. repeat split; try done.
    rewrite lookup_insert_eq. simpl. by rewrite <- app_assoc.
Qed.

(** C2. A viewer's connection has no remote description yet.  Candidates
    then arriving from the viewer leave the connection untouched and are
    appended, in arrival order, to the buffer filed under the viewer's id.
    When the viewer's answer is applied (setting the remote description
    succeeds), [addIceCandidate] is called on that connection once for each
    buffered candidate, in the order of arrival, after whatever calls were
    made before, and the buffer entry is removed. *)
Theorem C2_candidates_buffered_then_drained w ws s id peer q cs msg uuid env v :
  sockets w !! ws = Some s → readyState s ≠ 3 → uuid ≠ "" →
  role s = Some "viewer" → viewerId s = Some id → id ≠ "" →
  JsMap.get id (viewerPeers w) = Some peer → pcs w !! v_pc peer = Some q →
  remoteDescription q = None →
  m_type msg = "answer" → oracle env 0 = Ok v →
  let buffered := run (arrivals ws uuid cs) w in
  let drained := step buffered (EvMessage ws (JObj msg) uuid, env) in
  pcs buffered = pcs w ∧
  default [] (pendingCandidates buffered !! id)
    = default [] (pendingCandidates w !! id) ++ cs.*1 ∧
  ∃ q', pcs drained !! v_pc peer = Some q' ∧
        remoteDescription q' = Some (m_answer msg) ∧
        (iceCalls q').*1
          = (iceCalls q).*1 ++ default [] (pendingCandidates w !! id) ++ cs.*1 ∧
        pendingCandidates drained !! id = None.
Proof.
  intros Hs Hrs Hu Hr Hv Hid Hp Hq Hrd Ht Hok buffered drained.
  destruct (run_arrivals w ws s id peer q cs uuid) as (B1 & B2 & B3 & B4); try done.
  fold buffered in B1, B2, B3, B4.
  split; [done|]. split; [done|].
  destruct (answer_step buffered ws s id peer q msg uuid env v)
    as (q' & Hq' & HR & HI & HP & _); try done; try congruence.
  exists q'. fold drained in Hq', HP. split; [done|]. split; [done|].
  split; [|done].
  by rewrite HI, fmap_app, ice_outcomes_fst, B4.
Qed.

Lemma C2_witness :
  let w := run [ (EvConnection "10.0.0.2", all_ok);
                 (EvMessage 0 (register "viewer" "x") "u0", all_ok) ] init in
  let buffered := run (arrivals 0 "u0" [("c1", all_ok); ("c2", all_ok)]) w in
  let drained := step buffered (EvMessage 0 (answer_msg "viewer-answer") "u0",
                                first_candidate_fails) in
  (remoteDescription <$> pcs w !! 0) = Some None ∧
  pendingCandidates buffered !! "x" = Some ["c1"; "c2"] ∧
  ∃ q', pcs drained !! 0 = Some q' ∧
        remoteDescription q' = Some "viewer-answer" ∧
        (iceCalls q').*1 = ["c1"; "c2"] ∧
        pendingCandidates drained !! "x" = None.
Proof.
  intros w buffered drained. split; [reflexivity|]. split; [reflexivity|].
  destruct (C2_candidates_buffered_then_drained w 0
              (mkSocket (Some "viewer") (Some "x") 1
                 [MOffer (Some "sdp"); MRegisteredViewer "x";
                  MBroadcasterDisconnected false])
              "x" (mkViewer 0 0)
              (mkPc (OwnViewer "x" 0) false None (Some "sdp")
                 [mkTransceiver "video" "sendonly" None] [])
              [("c1", all_ok); ("c2", all_ok)]
              (mkInMsg "answer" "" "" "" "viewer-answer" "") "u0"
              first_candidate_fails "sdp")
    as (_ & _ & q' & H1 & H2 & H3 & H4);
    [reflexivity|discriminate|discriminate|reflexivity|reflexivity|discriminate
    |reflexivity|reflexivity|reflexivity|reflexivity|reflexivity|].
  exists q'. split; [exact H1|]. split; [exact H2|]. split; [exact H3|exact H4].
Defined.

(** ** C7: SDP negotiation errors *)

Global Instance open_kept_refl : Reflexive open_kept.
Proof. by intros q. Qed.

Global Instance open_kept_trans : Transitive open_kept.
Proof. unfold open_kept. intros a b c. congruence. Qed.

Lemma handle_offer_intact ws msg : respects sessions_intact (handle_offer ws msg).
Proof.
  apply respects_and; [|apply respects_and].
  - respects_go kept_leaf.
  - respects_go kept_leaf.
  - respects_go pcs_leaf.
Qed.

Lemma handle_answer_intact vid msg : respects sessions_intact (handle_answer vid msg).
Proof.
  apply respects_and; [|apply respects_and].
  - respects_go kept_leaf.
  - respects_go kept_leaf.
  - respects_go pcs_leaf.
Qed.

Lemma restartViewerIce_intact id : respects sessions_intact (restartViewerIce id).
Proof.
  apply respects_and; [|apply respects_and].
  - respects_go kept_leaf.
  - respects_go kept_leaf.
  - respects_go pcs_leaf.
Qed.

Lemma fails_at_cases env n k e :
  fails_at env n k e → k < 3 →
  oracle env n = Err e ∨
  (∃ v0, oracle env n = Ok v0 ∧ oracle env (S n) = Err e) ∨
  (∃ v0 v1, oracle env n = Ok v0 ∧ oracle env (S n) = Ok v1 ∧
            oracle env (S (S n)) = Err e ∧ k = 2).
Proof.
  intros [Hok Herr] Hk. destruct k as [|[|[|k]]]; [| | |lia].
  - left. by rewrite Nat.add_0_r in Herr.
  - right. left. destruct (Hok 0) as [v0 H0]; [lia|].
    rewrite Nat.add_0_r in H0. rewrite Nat.add_1_r in Herr. eauto.
  - right. right. destruct (Hok 0) as [v0 H0]; [lia|].
    destruct (Hok 1) as [v1 H1]; [lia|].
    rewrite Nat.add_0_r in H0. rewrite Nat.add_1_r in H1.
    replace (n + 2) with (S (S n)) in Herr by lia. eauto 8.
Qed.

Lemma handle_offer_error ws msg env n w bp k e :
  broadcasterPeer w = Some bp → k < 3 → fails_at env n k e →
  console (handle_offer ws msg env n w).2
  = console w ++ [mkLog ("Broadcaster offer error: " +:+ e) "error"] ∧
  sockets (handle_offer ws msg env n w).2 = sockets w.
Proof.
  intros Hbp Hk Hf. unfold handle_offer. rewrite eval_get_bind, Hbp.
  unfold try_catch, setRemoteDescription, createAnswer, setLocalDescription,
    mbind, M_bind, bind, external.
  destruct (fails_at_cases _ _ _ _ Hf Hk)
    as [E0|[(v0 & E0 & E1)|(v0 & v1 & E0 & E1 & E2 & _)]].
  - by rewrite E0.
  - rewrite E0. simpl. by rewrite E1.
  - rewrite E0. simpl. rewrite E1. simpl. by rewrite E2.
Qed.

Lemma handle_answer_error id peer msg env n w e :
  JsMap.get id (viewerPeers w) = Some peer → oracle env n = Err e →
  (handle_answer (Some id) msg env n w).2
  = set_console
      (console w ++ [mkLog ("Viewer answer error [" +:+ id +:+ "]: " +:+ e) "error"]) w.
Proof.
  intros Hp Hf. unfold handle_answer. rewrite eval_get_bind. simpl. rewrite Hp.
  simpl. unfold try_catch, setRemoteDescription, mbind, M_bind, bind, external.
  by rewrite Hf.
Qed.

Lemma restartViewerIce_error id peer env n w k e :
  JsMap.get id (viewerPeers w) = Some peer → k < 2 → fails_at env n k e →
  console (restartViewerIce id env n w).2
  = console w ++ [mkLog ("ICE restart error [" +:+ id +:+ "]: " +:+ e) "error"] ∧
  sockets (restartViewerIce id env n w).2 = sockets w.
Proof.
  intros Hp Hk Hf. unfold restartViewerIce. rewrite eval_get_bind, Hp.
  unfold try_catch, createOffer, setLocalDescription, mbind, M_bind, bind, external.
  destruct (fails_at_cases _ _ _ _ Hf ltac:(lia))
    as [E0|[(v0 & E0 & E1)|(v0 & v1 & E0 & E1 & E2 & ->)]]; [| |lia].
  - by rewrite E0.
  - rewrite E0. simpl. by rewrite E1.
Qed.

Lemma sendOfferToViewer_error id peer q env n w k e :
  JsMap.get id (viewerPeers w) = Some peer → pcs w !! v_pc peer = Some q →
  k < 2 → fails_at env n k e →
  let w' := (sendOfferToViewer id env n w).2 in
  JsMap.get id (viewerPeers w') = None ∧
  (pc_closed <$> pcs w' !! v_pc peer) = Some true ∧
  mkLog ("createOffer error [" +:+ id +:+ "]: " +:+ e) "error" ∈ console w'.
Proof.
  intros Hp Hq Hk Hf w'.
  set (line := mkLog ("createOffer error [" +:+ id +:+ "]: " +:+ e) "error").
  assert (Hcl : ∀ w1 n1, JsMap.get id (viewerPeers w1) = Some peer →
            (∃ q1, pcs w1 !! v_pc peer = Some q1) → line ∈ console w1 →
            let w2 := (cleanupViewer id env n1 w1).2 in
            JsMap.get id (viewerPeers w2) = None ∧
            (pc_closed <$> pcs w2 !! v_pc peer) = Some true ∧ line ∈ console w2).
  { intros w1 n1 Hp1 [q1 Hq1] Hl1 w2.
    destruct (cleanupViewer id env n1 w1) as [[r n2] w3] eqn:E. subst w2. simpl.
    assert (Hc : line ∈ console w3).
    { assert (R : respects (λ a b, line ∈ console a → line ∈ console b)
                    (cleanupViewer id)).
      { assert (Reflexive (λ a b : World, line ∈ console a → line ∈ console b))
          by (by intros a).
        assert (Transitive (λ a b : World, line ∈ console a → line ∈ console b))
          by (intros a b c; auto).
        respects_go ltac:(simpl; first [done|intros ?; apply elem_of_app; by left]). }
      by apply (R _ _ _ _ _ _ E). }
    destruct (cleanupViewer_spec id w1 _ _ _ eq_refl _ _ _ E) as [_ F].
    rewrite (fr_viewerPeers _ _ F), (fr_pcs _ _ F), cleaned_get.
    split; [done|]. split; [|done].
    unfold cleaned. rewrite Hp1. simpl. by rewrite list_lookup_alter_eq, Hq1. }
  assert (Hbody : ∃ n1,
    (offer ← createOffer (v_pc peer);
     setLocalDescription (v_pc peer) offer;;
     w ← get;
     safeSend (Some (v_ws peer))
       (MOffer (pc ← pcs w !! v_pc peer; localDescription pc));;
     log ("Offer sent to viewer " +:+ id) "success") env n w = (Throw e, n1, w)).
  { unfold createOffer, setLocalDescription.
    destruct (fails_at_cases _ _ _ _ Hf ltac:(lia))
      as [E0|[(v0 & E0 & E1)|(v0 & v1 & E0 & E1 & E2 & ->)]]; [| |lia].
    - exists (S n). by apply eval_external_err.
    - exists (S (S n)). erewrite eval_external_ok by exact E0.
      apply eval_bind_throw. by apply eval_external_err. }
  destruct Hbody as [n1 Hbody].
  subst w'. unfold sendOfferToViewer. rewrite eval_get_bind, Hp.
  erewrite eval_try_throw by exact Hbody.
  unfold log at 1. rewrite eval_modify_bind.
  apply Hcl; simpl; eauto. apply elem_of_app. right. left.
Qed.

(** C7 (counterexample). Viewer "x" registers on a fresh server and the
    engine fails to create the offer.  The error is logged, and the
    connection just made for "x" is closed and its entry removed; evaluated on
    a state where "x" has a session, [sendOfferToViewer] does not leave the
    sessions intact. *)
Lemma C7_counterexample :
  let w0 := run [(EvConnection "10.0.0.2", all_ok)] init in
  let w1 := step w0 (EvMessage 0 (register "viewer" "x") "u0", always_fails) in
  let w := step w0 (EvMessage 0 (register "viewer" "x") "u0", all_ok) in
  (viewerPeers w1 = [] ∧
   ((λ pc, (pc_owner pc, pc_closed pc)) <$> pcs w1) = [(OwnViewer "x" 0, true)] ∧
   mkLog "createOffer error [x]: invalid SDP" "error" ∈ console w1) ∧
  (viewerPeers w = [("x", mkViewer 0 0)] ∧
   ¬ sessions_intact w (sendOfferToViewer "x" always_fails 0 w).2).
Proof.
  intros w0 w1 w. split; [|split].
  - split; [reflexivity|]. split; [reflexivity|].
    vm_compute. do 3 right. left.
  - reflexivity.
  - intros (_ & Hv & _). vm_compute in Hv. discriminate Hv.
Qed.

(** C7 (amended). Whatever the engine answers, handling the broadcaster's
    offer, a viewer's answer or an ICE restart leaves the broadcaster
    session, the viewer entries and every connection's open state as they
    were; when one of their SDP calls fails, the error is logged (and no
    message is sent).  When creating or applying the first offer to a viewer
    fails, the error is logged and that viewer's session is torn down: its
    entry is removed and its connection closed. *)
Theorem C7_negotiation_errors :
  (∀ ws msg, respects sessions_intact (handle_offer ws msg)) ∧
  (∀ vid msg, respects sessions_intact (handle_answer vid msg)) ∧
  (∀ id, respects sessions_intact (restartViewerIce id)) ∧
  (∀ ws msg env n w bp k e,
     broadcasterPeer w = Some bp → k < 3 → fails_at env n k e →
     console (handle_offer ws msg env n w).2
     = console w ++ [mkLog ("Broadcaster offer error: " +:+ e) "error"] ∧
     sockets (handle_offer ws msg env n w).2 = sockets w) ∧
  (∀ id peer msg env n w e,
     JsMap.get id (viewerPeers w) = Some peer → oracle env n = Err e →
     (handle_answer (Some id) msg env n w).2
     = set_console
         (console w ++ [mkLog ("Viewer answer error [" +:+ id +:+ "]: " +:+ e) "error"])
         w) ∧
  (∀ id peer env n w k e,
     JsMap.get id (viewerPeers w) = Some peer → k < 2 → fails_at env n k e →
     console (restartViewerIce id env n w).2
     = console w ++ [mkLog ("ICE restart error [" +:+ id +:+ "]: " +:+ e) "error"] ∧
     sockets (restartViewerIce id env n w).2 = sockets w) ∧
  (∀ id peer q env n w k e,
     JsMap.get id (viewerPeers w) = Some peer → pcs w !! v_pc peer = Some q →
     k < 2 → fails_at env n k e →
     let w' := (sendOfferToViewer id env n w).2 in
     JsMap.get id (viewerPeers w') = None ∧
     (pc_closed <$> pcs w' !! v_pc peer) = Some true ∧
     mkLog ("createOffer error [" +:+ id +:+ "]: " +:+ e) "error" ∈ console w').
Proof.
  split; [exact handle_offer_intact|]. split; [exact handle_answer_intact|].
  split; [exact restartViewerIce_intact|]. split; [exact handle_offer_error|].
  split; [exact handle_answer_error|]. split; [exact restartViewerIce_error|].
  exact sendOfferToViewer_error.
Qed.

(** The broadcaster's offer is applied but no answer can be created. *)
Lemma C7_witness :
  let w := run negotiated_trace init in
  let w' := (handle_offer 0 (mkInMsg "offer" "" "" "new-offer" "" "") answer_fails 0 w).2 in
  broadcasterPeer w = Some (mkBroadcaster 0 0 None) ∧
  fails_at answer_fails 0 1 "no compatible codec" ∧
  console w' = console w ++ [mkLog "Broadcaster offer error: no compatible codec" "error"] ∧
  sockets w' = sockets w.
Proof.
  intros w w'. split; [reflexivity|].
  assert (Hf : fails_at answer_fails 0 1 "no compatible codec").
  { split; [|reflexivity]. intros j Hj. assert (j = 0) as -> by lia. by exists "sdp". }
  split; [exact Hf|].
  destruct C7_negotiation_errors as (_ & _ & _ & H & _).
  apply (H 0 (mkInMsg "offer" "" "" "new-offer" "" "") answer_fails 0 w
           (mkBroadcaster 0 0 None) 1 "no compatible codec");
    [reflexivity|lia|exact Hf].
Defined.

(** ** C6: the disconnect timer *)

(** C6 (the code at the failing input). Each closure arms a timer of
    30000 ms, but the second overwrites [broadcasterTimeoutTimer] without
    clearing the first.  The broadcaster that registers next cancels only the
    second timer; the first is still pending, and when it fires viewer "x" is
    told that the broadcaster is gone although one is registered. *)
Theorem C6_orphaned_timer_fires :
  let w := run two_closures_trace init in
  let w' := step w (EvTimeout 0, all_ok) in
  timers w = [mkTimer BROADCASTER_TIMEOUT true; mkTimer BROADCASTER_TIMEOUT false] ∧
  broadcasterTimeoutTimer w = None ∧
  broadcasterPeer w = Some (mkBroadcaster 3 3 None) ∧
  broadcasterPeer w' = Some (mkBroadcaster 3 3 None) ∧
  (sent <$> sockets w !! 1) = Some [MOffer (Some "sdp"); MRegisteredViewer "x"] ∧
  (sent <$> sockets w' !! 1)
    = Some [MOffer (Some "sdp"); MRegisteredViewer "x"; MBroadcasterDisconnected false].
Proof. repeat split; reflexivity. Qed.

(** *** What holds of the timer when closures do not overlap

    The lemmas below are the behaviour the close and register handlers
    aim at; they are about the timer whose handle is in
    [broadcasterTimeoutTimer]. *)

Lemma cleanupBroadcaster_eval env n w :
  ∃ w1, cleanupBroadcaster env n w = (Done tt, n, w1) ∧
        broadcasterPeer w1 = None ∧ viewerPeers w1 = viewerPeers w ∧
        timers w1 = timers w ∧ sockets w1 = sockets w.
Proof.
  unfold cleanupBroadcaster. rewrite eval_get_bind.
  destruct (broadcasterPeer w) as [bp|] eqn:E.
  - eexists. split; [reflexivity|]. by simpl.
  - eexists. split; [reflexivity|]. by simpl.
Qed.

(** Closing the broadcaster's channel arms a single-shot timer of
    [BROADCASTER_TIMEOUT] ms, keeps its handle, drops the broadcaster
    session, and tells the viewers nothing yet. *)
Lemma broadcaster_close_step w ws s env :
  sockets w !! ws = Some s → readyState s ≠ 3 → role s = Some "broadcaster" →
  let w' := step w (EvClose ws, env) in
  timers w' = timers w ++ [mkTimer BROADCASTER_TIMEOUT true] ∧
  broadcasterTimeoutTimer w' = Some (length (timers w)) ∧
  broadcasterPeer w' = None ∧
  viewerPeers w' = viewerPeers w ∧
  (∀ c, sent <$> sockets w' !! c = sent <$> sockets w !! c).
Proof.
  intros Hs Hrs Hr w'.
  assert (Hw' : ∃ w1,
    broadcasterPeer w1 = None ∧ viewerPeers w1 = viewerPeers w ∧
    timers w1 = timers w ∧ sockets w1 = alter (set_readyState 3) ws (sockets w) ∧
    w' = set_broadcasterTimeoutTimer (Some (length (timers w1)))
           (set_timers (timers w1 ++ [mkTimer BROADCASTER_TIMEOUT true]) w1)).
  { subst w'. unfold step, dispatch. simpl. rewrite eval_get_bind, Hs.
    rewrite bool_decide_eq_false_2 by done. unfold update_socket.
    rewrite eval_modify_bind. unfold on_close. rewrite eval_get_bind. simpl.
    rewrite list_lookup_alter_eq, Hs. simpl. rewrite Hr. simpl.
    unfold log at 1. rewrite eval_modify_bind.
    match goal with
    | |- context [(cleanupBroadcaster ≫= _) env ?n ?w0] =>
        destruct (cleanupBroadcaster_eval env n w0) as (w1 & E & Hb & Hv & Ht & Hso)
    end.
    exists w1. erewrite eval_bind by exact E. by repeat split. }
  destruct Hw' as (w1 & Hb & Hv & Ht & Hso & ->). simpl. rewrite Ht.
  repeat split; try done.
  intros c. rewrite Hso. destruct (decide (ws = c)) as [<-|Hne].
  - by rewrite list_lookup_alter_eq, Hs.
  - by rewrite list_lookup_alter_ne.
Qed.

(** A timer that is not pending does nothing when its time comes. *)
Lemma cancelled_timer_silent w t env :
  (∀ tm, timers w !! t = Some tm → pending tm = false) →
  step w (EvTimeout t, env) = w.
Proof.
  intros H. unfold step, dispatch. simpl. rewrite eval_get_bind.
  destruct (timers w !! t) as [tm|] eqn:E; [|done]. by rewrite (H tm).
Qed.

Lemma safeSend_eval c data env n w s v :
  sockets w !! c = Some s → readyState s = 1 → oracle env n = Ok v →
  safeSend (Some c) data env n w
  = (Done true, S n,
     set_sockets (alter (λ s, set_sent (sent s ++ [data]) s) c (sockets w)) w).
Proof.
  intros Hs Hr Ho. unfold safeSend. rewrite eval_get_bind, Hs. simpl.
  rewrite bool_decide_eq_true_2 by congruence.
  unfold try_catch, ws_send, update_socket, mbind, M_bind, bind, external.
  by rewrite Ho.
Qed.

Lemma safeSend_not_open c data env n w :
  readyState <$> sockets w !! c ≠ Some 1 →
  safeSend (Some c) data env n w = (Done false, n, w).
Proof.
  intros Hr. unfold safeSend. rewrite eval_get_bind.
  by rewrite bool_decide_eq_false_2.
Qed.

Lemma notify_loop data env l :
  (∀ k, ∃ v, oracle env k = Ok v) →
  ∀ n w r n' w',
    for_each l (λ '(_, peer), safeSend (Some (v_ws peer)) data;; mret tt) env n w
    = (r, n', w') →
    notified data l w w' ∧ viewerPeers w' = viewerPeers w ∧
    broadcasterPeer w' = broadcasterPeer w ∧ timers w' = timers w.
Proof.
  intros Hok. induction l as [|[id peer] l IH]; intros n w r n' w'; simpl.
  - intros [= <- <- <-]. split; [|done]. intros c s Hs. exists s, [].
    rewrite app_nil_r. repeat split; try done.
    intros (? & ? & []%elem_of_nil & _).
  - destruct (decide (readyState <$> sockets w !! v_ws peer = Some 1)) as [Ho|Hn].
    + destruct (sockets w !! v_ws peer) as [s0|] eqn:Hs0; [|done].
      injection Ho as Ho. destruct (Hok n) as [v Hv].
      erewrite eval_bind
        by (erewrite eval_bind by (by eapply safeSend_eval); reflexivity).
      intros E. apply IH in E as (HN & Hvp & Hbp & Htm). split; [|done].
      intros c s Hs. destruct (decide (v_ws peer = c)) as [<-|Hne].
      * rewrite Hs0 in Hs. injection Hs as <-.
        destruct (HN (v_ws peer) (set_sent (sent s0 ++ [data]) s0))
          as (s' & more & Hs' & Hr' & Hsent & _).
        { simpl. by rewrite list_lookup_alter_eq, Hs0. }
        exists s', (data :: more). split; [done|]. split; [done|].
        split; [by rewrite Hsent; simpl; rewrite <- app_assoc|].
        intros _ _. left.
      * destruct (HN c s) as (s' & more & Hs' & Hr' & Hsent & Hin).
        { simpl. by rewrite list_lookup_alter_ne. }
        exists s', more. repeat split; try done.
        intros (id' & peer' & [[= -> ->]|Hin']%elem_of_cons & Hc) Hopen; [done|].
        apply Hin; eauto.
    + erewrite eval_bind
        by (erewrite eval_bind by (by eapply safeSend_not_open); reflexivity).
      intros E. apply IH in E as (HN & Hvp & Hbp & Htm). split; [|done].
      intros c s Hs. destruct (HN c s Hs) as (s' & more & Hs' & Hr' & Hsent & Hin).
      exists s', more. repeat split; try done.
      intros (id' & peer' & [[= -> ->]|Hin']%elem_of_cons & Hc) Hopen.
      * subst c. rewrite Hs in Hn. simpl in Hn. congruence.
      * apply Hin; eauto.
Qed.

(** When the pending timer fires and the sends go through, every viewer
    whose socket is open receives [broadcasterDisconnected] with
    [permanent: false]; no session is touched. *)
Lemma timeout_step_notifies w t tm env :
  timers w !! t = Some tm → pending tm = true →
  (∀ k, ∃ v, oracle env k = Ok v) →
  let w' := step w (EvTimeout t, env) in
  notified (MBroadcasterDisconnected false) (viewerPeers w) w w' ∧
  viewerPeers w' = viewerPeers w ∧ broadcasterPeer w' = broadcasterPeer w ∧
  (pending <$> timers w' !! t) = Some false.
Proof.
  intros Ht Hp Hok. unfold step, dispatch. simpl. rewrite eval_get_bind, Ht, Hp.
  rewrite eval_modify_bind. unfold broadcaster_timeout, log.
  rewrite eval_modify_bind. unfold notifyAllViewers. rewrite eval_get_bind. simpl.
  match goal with
  | |- context [for_each ?l ?b env ?n ?w0] =>
      destruct (for_each l b env n w0) as [[r n'] w'] eqn:E
  end.
  apply (notify_loop _ _ _ Hok) in E as (HN & Hv & Hb & Htm).
  assert (Hfinal : notified (MBroadcasterDisconnected false) (viewerPeers w) w w' ∧
            viewerPeers w' = viewerPeers w ∧ broadcasterPeer w' = broadcasterPeer w ∧
            (pending <$> timers w' !! t) = Some false).
  { split; [exact HN|]. split; [exact Hv|]. split; [exact Hb|].
    rewrite Htm. simpl. rewrite list_lookup_insert_eq; [done|].
    by eapply lookup_lt_Some. }
  by destruct r.
Qed.

(** A broadcaster that registers cancels the timer whose handle is in
    [broadcasterTimeoutTimer]: that timer never notifies anybody. *)
Lemma register_cancels_timer w ws s msg uuid env t env' :
  sockets w !! ws = Some s → readyState s ≠ 3 → uuid ≠ "" →
  m_type msg = "register" → m_role msg = "broadcaster" →
  broadcasterTimeoutTimer w = Some t →
  let w' := step w (EvMessage ws (JObj msg) uuid, env) in
  step w' (EvTimeout t, env') = w'.
Proof.
  intros Hs Hrs Hu Ht Hr Htm w'.
  destruct (register_broadcaster_step w ws s msg uuid env) as (_ & _ & H); auto.
  fold w' in H. apply cancelled_timer_silent. intros tm. rewrite H.
  unfold timers_after_register. rewrite Htm, list_lookup_alter_eq.
  destruct (timers w !! t); simpl; [|done]. by intros [= <-].
Qed.
